(** * Synchronization validation: per-resource hazard tracking

    A shallow embedding of [layers/synchronization_validation.cpp]: the
    hazard-name tables, the stage/access scope calculator, the per-resource
    access state machine ([ResourceAccessState]), the barrier appliers and the
    copy validator of [SyncValidator].

    Bit masks ([VkPipelineStageFlags], [VkAccessFlags], [SyncStageAccessFlags])
    are unsigned machine integers in the source.  They are embedded as [Z] with
    [Z.land] / [Z.lor] / [Z.lnot]; the source only ever combines them with
    [&], [|], [~] and compares them with [<], so no wrap-around arises. *)

From Stdlib Require Import ZArith Lia Bool List.
From stdpp Require Import base list gmap strings.

Local Open Scope Z_scope.

(** ** Hazard kinds and their names *)

(** [enum SyncHazard] *)
Inductive SyncHazard : Type :=
  | NONE
  | READ_AFTER_WRITE
  | WRITE_AFTER_READ
  | WRITE_AFTER_WRITE.

#[global] Instance SyncHazard_eq_dec : EqDecision SyncHazard.
Proof. solve_decision. Defined.

(** [string_SyncHazardVUID]: the [default:] arm of the switch is unreachable
    for the four enumerators. *)
Definition string_SyncHazardVUID (hazard : SyncHazard) : string :=
  match hazard with
  | NONE => "SYNC-NONE"
  | READ_AFTER_WRITE => "SYNC-HAZARD-READ_AFTER_WRITE"
  | WRITE_AFTER_READ => "SYNC-HAZARD-WRITE_AFTER_READ"
  | WRITE_AFTER_WRITE => "SYNC-HAZARD-WRITE_AFTER_WRITE"
  end.

(** [string_SyncHazard], literal for literal. *)
Definition string_SyncHazard (hazard : SyncHazard) : string :=
  match hazard with
  | NONE => "NONR"
  | READ_AFTER_WRITE => "READ_AFTER_WRITE"
  | WRITE_AFTER_READ => "WRITE_AFTER_READ"
  | WRITE_AFTER_WRITE => "WRITE_AFTER_WRITE"
  end.

(** ** Stage/access scope calculator *)

(** The lookup tables are [std::map]s from a flag bit to a stage/access mask;
    iteration visits the entries in ascending key order, so a table is
    embedded as the list of its entries in that order. *)
Definition ScopeMap : Type := list (Z * Z).

(** [AccessScopeImpl]: the body of the range-for, threading [scope].
    [break] returns the scope accumulated so far. *)
Fixpoint AccessScopeImpl_loop (flag_mask : Z) (map : ScopeMap) (scope : Z) : Z :=
  match map with
  | [] => scope
  | bit_scope :: rest =>
      if flag_mask <? bit_scope.1 then scope
      else
        AccessScopeImpl_loop flag_mask rest
          (if Z.land flag_mask bit_scope.1 =? 0 then scope
           else Z.lor scope bit_scope.2)
  end.

Definition AccessScopeImpl (flag_mask : Z) (map : ScopeMap) : Z :=
  AccessScopeImpl_loop flag_mask map 0.

(** The naive full scan the specification allows instead: the same
    membership test and union, without the early exit. *)
Fixpoint AccessScopeNaive_loop (flag_mask : Z) (map : ScopeMap) (scope : Z) : Z :=
  match map with
  | [] => scope
  | bit_scope :: rest =>
      AccessScopeNaive_loop flag_mask rest
        (if Z.land flag_mask bit_scope.1 =? 0 then scope
         else Z.lor scope bit_scope.2)
  end.

Definition AccessScopeNaive (flag_mask : Z) (map : ScopeMap) : Z :=
  AccessScopeNaive_loop flag_mask map 0.

(** A key that is one single bit. *)
Definition is_single_bit (k : Z) : bool :=
  (0 <? k) && (k =? 2 ^ Z.log2 k).

(** Keys single-bit and strictly ascending, checked entry by entry against
    the previous key. *)
Fixpoint ascending_bits_from (prev : Z) (map : ScopeMap) : bool :=
  match map with
  | [] => true
  | bit_scope :: rest =>
      (prev <? bit_scope.1) && is_single_bit bit_scope.1
      && ascending_bits_from bit_scope.1 rest
  end.

Definition ascending_single_bit_keys (map : ScopeMap) : bool :=
  ascending_bits_from 0 map.

(** ** Declarations the source takes from its headers

    [synchronization_validation.h] and the generated stage/access tables are
    not among the sources.  What the functions below use from them, and the
    specification does not pin down, is taken as a parameter: the enumeration
    of stage/access indices with its two per-index lookups, the read test in
    both its overloads (on a flag bit and on an index), the two scope tables,
    the two usages of a transfer copy, and [AccessScope] as the barrier
    appliers call it.  Those calls pass a stage/access scope
    ([SyncStageAccessFlags]) as first argument, where the [AccessScope]
    defined in the source file takes a stage mask ([VkPipelineStageFlags]);
    which declaration of the class they select is for the header to say. *)

(** [enum SyncStageAccessIndex] *)
Definition SyncStageAccessIndex : Type := nat.

(** [struct ResourceUsageTag]: an opaque, increasing identifier. *)
Definition ResourceUsageTag : Type := N.

(** [VkBuffer]: an opaque handle. *)
Definition VkBuffer : Type := N.

Class SyncStageAccessTables : Type := {
  FlagBit : SyncStageAccessIndex → Z;
  PipelineStageBit : SyncStageAccessIndex → Z;
  IsRead : Z → bool;
  IsRead_index : SyncStageAccessIndex → bool;
  syncStageAccessMaskByStageBit : ScopeMap;
  syncStageAccessMaskByAccessBit : ScopeMap;
  SYNC_TRANSFER_TRANSFER_READ : SyncStageAccessIndex;
  SYNC_TRANSFER_TRANSFER_WRITE : SyncStageAccessIndex;
  AccessScope_stage_scope : Z → Z → Z
}.

(** ** Data model *)

(** [ResourceAccessState::ReadState] *)
Record ReadState : Type := {
  stage : Z;
  barriers : Z;
  tag : ResourceUsageTag
}.

#[global] Instance ReadState_inhabited : Inhabited ReadState :=
  populate {| stage := 0; barriers := 0; tag := 0%N |}.

(** The private members of [ResourceAccessState].  [last_reads] is a
    [std::array]: a list whose length, the capacity, never changes;
    [last_read_count] says how many of its slots are live. *)
Record ResourceAccessState : Type := {
  write_barriers : Z;
  write_tag : ResourceUsageTag;
  last_write : Z;
  last_reads : list ReadState;
  last_read_count : nat;
  last_read_stages : Z
}.

(** [struct HazardResult]; its member [tag] is [hazard_tag] here, the name
    [tag] being [ReadState]'s. *)
Record HazardResult : Type := {
  hazard : SyncHazard;
  hazard_tag : ResourceUsageTag
}.

(** Modelled from the spec: the default-constructed [HazardResult] (declared
    in the header) has kind None, which carries no tag; the tag slot holds the
    default tag. *)
Definition HazardResult_default : HazardResult :=
  {| hazard := NONE; hazard_tag := 0%N |}.

(** [HazardResult::Set] *)
Definition HazardResult_Set (h : HazardResult) (hazard_ : SyncHazard)
    (tag_ : ResourceUsageTag) : HazardResult :=
  {| hazard := hazard_; hazard_tag := tag_ |}.

(** Modelled from the spec: [IsWriteHazard] is a private inline member declared
    in the header.  A usage is hazardous against the recorded write unless it
    is covered by the scope the write has been granted
    ([writeGrantedScope], the member [write_barriers]). *)
Definition IsWriteHazard (s : ResourceAccessState) (usage : Z) : bool :=
  negb (Z.land usage (Z.lnot (write_barriers s)) =? 0).

(** Modelled from the spec: [IsReadHazard] is a private inline member declared
    in the header.  A read record is hazardous for a usage stage unless that
    stage is covered by the record's granted barrier scope. *)
Definition IsReadHazard (usage_stage : Z) (read_access : ReadState) : bool :=
  negb (Z.land usage_stage (Z.lnot (barriers read_access)) =? 0).

(** The live read records: the first [last_read_count] slots. *)
Definition live_reads (s : ResourceAccessState) : list ReadState :=
  take (last_read_count s) (last_reads s).

(** Union of the stage bits of a list of read records. *)
Definition stages_union (l : list ReadState) : Z :=
  foldr Z.lor 0 (stage <$> l).

Section AccessState.
Context `{!SyncStageAccessTables}.

(** *** Scope calculator entry points *)

Definition AccessScopeByStage (stages : Z) : Z :=
  AccessScopeImpl stages syncStageAccessMaskByStageBit.

Definition AccessScopeByAccess (accesses : Z) : Z :=
  AccessScopeImpl accesses syncStageAccessMaskByAccessBit.

Definition AccessScope (stages accesses : Z) : Z :=
  Z.land (AccessScopeByStage stages) (AccessScopeByAccess accesses).

(** *** [ResourceAccessState::DetectHazard] *)

(** The write-after-read scan: [read_index] runs up to [last_read_count];
    [n] is the number of iterations left.  Reading a slot past the capacity
    is undefined in the source; the total lookup returns the default record
    there. *)
Fixpoint DetectHazard_reads (s : ResourceAccessState) (usage_stage : Z)
    (read_index n : nat) (hazard : HazardResult) : HazardResult :=
  match n with
  | O => hazard
  | S n' =>
      if IsReadHazard usage_stage (last_reads s !!! read_index)
      then HazardResult_Set hazard WRITE_AFTER_READ
             (tag (last_reads s !!! read_index))
      else DetectHazard_reads s usage_stage (S read_index) n' hazard
  end.

Definition DetectHazard (s : ResourceAccessState)
    (usage_index : SyncStageAccessIndex) : HazardResult :=
  let hazard := HazardResult_default in
  let usage := FlagBit usage_index in
  if IsRead usage && IsWriteHazard s usage then
    HazardResult_Set hazard READ_AFTER_WRITE (write_tag s)
  else if negb (last_write s =? 0) && IsWriteHazard s usage then
    HazardResult_Set hazard WRITE_AFTER_WRITE (write_tag s)
  else
    let usage_stage := PipelineStageBit usage_index in
    DetectHazard_reads s usage_stage 0 (last_read_count s) hazard.

(** *** [ResourceAccessState::Update] *)

(** The search for the record of [usage_stage]; the first match has its
    barriers cleared and its tag replaced, and ends the loop. *)
Fixpoint Update_restart (reads : list ReadState) (usage_stage : Z)
    (tag_ : ResourceUsageTag) (read_index n : nat) : list ReadState :=
  match n with
  | O => reads
  | S n' =>
      let access := reads !!! read_index in
      if stage access =? usage_stage then
        <[read_index := {| stage := stage access; barriers := 0; tag := tag_ |}]>
          reads
      else Update_restart reads usage_stage tag_ (S read_index) n'
  end.

(** [None] is the failed [assert(last_read_count < last_reads.size())].  The
    local [usage_bit] of the read branch is not used by the source and is
    left out. *)
Definition Update (s : ResourceAccessState) (usage_index : SyncStageAccessIndex)
    (tag_ : ResourceUsageTag) : option ResourceAccessState :=
  if IsRead_index usage_index then
    let usage_stage := PipelineStageBit usage_index in
    if negb (Z.land usage_stage (last_read_stages s) =? 0) then
      Some {| write_barriers := write_barriers s;
              write_tag := write_tag s;
              last_write := last_write s;
              last_reads :=
                Update_restart (last_reads s) usage_stage tag_ 0
                  (last_read_count s);
              last_read_count := last_read_count s;
              last_read_stages := last_read_stages s |}
    else if (last_read_count s <? length (last_reads s))%nat then
      Some {| write_barriers := write_barriers s;
              write_tag := write_tag s;
              last_write := last_write s;
              last_reads :=
                <[last_read_count s :=
                    {| stage := usage_stage; barriers := 0; tag := tag_ |}]>
                  (last_reads s);
              last_read_count := S (last_read_count s);
              last_read_stages := Z.lor (last_read_stages s) usage_stage |}
    else None
  else
    Some {| write_barriers := 0;
            write_tag := tag_;
            last_write := FlagBit usage_index;
            last_reads := last_reads s;
            last_read_count := 0;
            last_read_stages := 0 |}.

(** *** [ResourceAccessState::ApplyExecutionBarrier] *)

(** What one iteration does to the record [access] refers to. *)
Definition barrier_read (srcStageMask dstStageMask : Z) (access : ReadState)
    : ReadState :=
  if negb (Z.land srcStageMask (Z.lor (stage access) (barriers access)) =? 0)
  then {| stage := stage access;
          barriers := Z.lor (barriers access) dstStageMask;
          tag := tag access |}
  else access.

Fixpoint ApplyExecutionBarrier_loop (reads : list ReadState)
    (srcStageMask dstStageMask : Z) (read_index n : nat) : list ReadState :=
  match n with
  | O => reads
  | S n' =>
      ApplyExecutionBarrier_loop
        (<[read_index :=
             barrier_read srcStageMask dstStageMask (reads !!! read_index)]>
           reads)
        srcStageMask dstStageMask (S read_index) n'
  end.

Definition ApplyExecutionBarrier (s : ResourceAccessState)
    (srcStageMask dstStageMask : Z) : ResourceAccessState :=
  {| write_barriers := write_barriers s;
     write_tag := write_tag s;
     last_write := last_write s;
     last_reads :=
       ApplyExecutionBarrier_loop (last_reads s) srcStageMask dstStageMask 0
         (last_read_count s);
     last_read_count := last_read_count s;
     last_read_stages := last_read_stages s |}.

(** *** [ResourceAccessState::ApplyMemoryBarrier] *)

Definition ApplyMemoryBarrier (s : ResourceAccessState)
    (src_scope dst_scope : Z) : ResourceAccessState :=
  if negb (Z.land src_scope (Z.lor (last_write s) (write_barriers s)) =? 0)
  then {| write_barriers := Z.lor (write_barriers s) dst_scope;
          write_tag := write_tag s;
          last_write := last_write s;
          last_reads := last_reads s;
          last_read_count := last_read_count s;
          last_read_stages := last_read_stages s |}
  else s.

(** *** The state machine as a whole *)

(** The mutating operations of a [ResourceAccessState]. *)
Inductive AccessOp : Type :=
  | OpUpdate (usage_index : SyncStageAccessIndex) (tag_ : ResourceUsageTag)
  | OpExecutionBarrier (srcStageMask dstStageMask : Z)
  | OpMemoryBarrier (src_scope dst_scope : Z).

Definition step (s : ResourceAccessState) (op : AccessOp)
    : option ResourceAccessState :=
  match op with
  | OpUpdate usage_index tag_ => Update s usage_index tag_
  | OpExecutionBarrier src dst => Some (ApplyExecutionBarrier s src dst)
  | OpMemoryBarrier src dst => Some (ApplyMemoryBarrier s src dst)
  end.

(** The invariant of the data model: [last_read_stages] is the union of the
    stages of the live read records. *)
Definition read_stages_inv (s : ResourceAccessState) : Prop :=
  last_read_stages s = stages_union (live_reads s).

End AccessState.

(** ** Tracker, barrier appliers and the copy validator *)

(** [ResourceAccessTracker]: the per-command-buffer map from a resource to its
    access state.  Both lookups the source calls on it are declared in the
    header. *)
Abbreviation ResourceAccessTracker := (gmap VkBuffer ResourceAccessState).

(** Modelled from the spec: [GetNoInsert], the lookup without creation
    ([GetIfPresent]).  A resource never touched has no entry and yields the
    null pointer, [None]. *)
Definition Tracker_GetNoInsert (tracker : ResourceAccessTracker)
    (buffer_ : VkBuffer) : option ResourceAccessState :=
  tracker !! buffer_.

(** Modelled from the spec: the overload of [Get] that a pointer to a [const]
    tracker selects; the read-only validation path looks up without creating
    ([GetIfPresent]). *)
Definition Tracker_Get_const (tracker : ResourceAccessTracker)
    (buffer_ : VkBuffer) : option ResourceAccessState :=
  tracker !! buffer_.

(** [VkBufferCopy]; its member [size] is [size_] here. *)
Record VkBufferCopy : Type := {
  srcOffset : N;
  dstOffset : N;
  size_ : N
}.

(** [VkMemoryBarrier], the members the source reads. *)
Record VkMemoryBarrier : Type := {
  srcAccessMask : Z;
  dstAccessMask : Z
}.

(** [VkBufferMemoryBarrier], the members the source reads. *)
Record VkBufferMemoryBarrier : Type := {
  buffer_srcAccessMask : Z;
  buffer_dstAccessMask : Z;
  buffer : VkBuffer
}.

(** One [log_msg] call of the copy validator: the object handle, the message
    identifier, the hazard label substituted into the format string, which
    buffer the format string names, and the region index. *)
Record LogMsg : Type := {
  msg_object : VkBuffer;
  msg_vuid : string;
  msg_hazard : string;
  msg_buffer : string;
  msg_region : nat
}.

(** What a validation call does, in order: its hazard queries and its
    reports. *)
Inductive Event : Type :=
  | EvDetectHazard (current_usage : SyncStageAccessIndex) (buffer_ : VkBuffer)
      (region : nat)
  | EvLogMsg (m : LogMsg).

Section Validator.
Context `{!SyncStageAccessTables}.

(** *** [SyncValidator::ApplyGlobalBarriers] *)

(** The first loop: one scope pair per memory barrier. *)
Definition barrier_scopes (src_stage_scope dst_stage_scope : Z)
    (pMemoryBarriers : list VkMemoryBarrier) : list (Z * Z) :=
  (λ barrier,
     (AccessScope_stage_scope src_stage_scope (srcAccessMask barrier),
      AccessScope_stage_scope dst_stage_scope (dstAccessMask barrier)))
  <$> pMemoryBarriers.

(** The inner loop over [barrier_scope] for one tracked state. *)
Fixpoint ApplyMemoryBarriers (s : ResourceAccessState)
    (barrier_scope : list (Z * Z)) : ResourceAccessState :=
  match barrier_scope with
  | [] => s
  | scope :: rest =>
      ApplyMemoryBarriers (ApplyMemoryBarrier s scope.1 scope.2) rest
  end.

(** The pass over every entry of the tracker: each entry is updated in place
    and independently of the others. *)
Definition ApplyGlobalBarriers (tracker : ResourceAccessTracker)
    (srcStageMask dstStageMask src_stage_scope dst_stage_scope : Z)
    (pMemoryBarriers : list VkMemoryBarrier) : ResourceAccessTracker :=
  let barrier_scope :=
    barrier_scopes src_stage_scope dst_stage_scope pMemoryBarriers in
  (λ tracked,
     ApplyMemoryBarriers
       (ApplyExecutionBarrier tracked srcStageMask dstStageMask) barrier_scope)
  <$> tracker.

(** *** [SyncValidator::ApplyBufferBarriers] *)

Fixpoint ApplyBufferBarriers (tracker : ResourceAccessTracker)
    (src_stage_scope dst_stage_scope : Z)
    (barriers_ : list VkBufferMemoryBarrier) : ResourceAccessTracker :=
  match barriers_ with
  | [] => tracker
  | barrier :: rest =>
      match Tracker_GetNoInsert tracker (buffer barrier) with
      | None => ApplyBufferBarriers tracker src_stage_scope dst_stage_scope rest
      | Some access_state =>
          ApplyBufferBarriers
            (<[buffer barrier :=
                 ApplyMemoryBarrier access_state
                   (AccessScope_stage_scope src_stage_scope
                      (buffer_srcAccessMask barrier))
                   (AccessScope_stage_scope dst_stage_scope
                      (buffer_dstAccessMask barrier))]>
               tracker)
            src_stage_scope dst_stage_scope rest
      end
  end.

(** [SyncValidator::ApplyImageBarriers]: an empty body. *)
Definition ApplyImageBarriers (tracker : ResourceAccessTracker)
    (src_stage_scope dst_stage_scope : Z) : ResourceAccessTracker :=
  tracker.

(** [SyncValidator::PreCallRecordCmdPipelineBarrier]; [None] is the failed
    [assert(tracker)]. *)
Definition PreCallRecordCmdPipelineBarrier
    (tracker : option ResourceAccessTracker) (srcStageMask dstStageMask : Z)
    (pMemoryBarriers : list VkMemoryBarrier)
    (pBufferMemoryBarriers : list VkBufferMemoryBarrier)
    : option ResourceAccessTracker :=
  match tracker with
  | None => None
  | Some tracker =>
      let src_stage_scope := AccessScopeByStage srcStageMask in
      let dst_stage_scope := AccessScopeByStage dstStageMask in
      let tracker :=
        ApplyBufferBarriers tracker src_stage_scope dst_stage_scope
          pBufferMemoryBarriers in
      let tracker := ApplyImageBarriers tracker src_stage_scope dst_stage_scope in
      Some (ApplyGlobalBarriers tracker srcStageMask dstStageMask
              src_stage_scope dst_stage_scope pMemoryBarriers)
  end.

(** *** [SyncValidator::DetectHazard] *)

(** The tracker is reached through a pointer; the function returns it next to
    the result so that what the query does to it can be stated. *)
Definition SyncValidator_DetectHazard (tracker : ResourceAccessTracker)
    (current_usage : SyncStageAccessIndex) (buffer_ : VkBuffer)
    (region : VkBufferCopy) : HazardResult * ResourceAccessTracker :=
  match Tracker_Get_const tracker buffer_ with
  | Some access_state => (DetectHazard access_state current_usage, tracker)
  | None => (HazardResult_default, tracker)
  end.

(** *** [SyncValidator::PreCallValidateCmdCopyBuffer] *)

(** [log_msg] belongs to the logging layer; its boolean result, which the
    validator accumulates into [skip], is whatever that layer answers. *)
Variable log_msg : LogMsg → bool.

(** [if (hazard.hazard)] *)
Definition is_hazard (h : HazardResult) : bool :=
  match hazard h with
  | NONE => false
  | _ => true
  end.

(** The body of the region loop up to [if (skip) break;]. *)
Definition validate_region (tracker : ResourceAccessTracker)
    (srcBuffer dstBuffer : VkBuffer) (region : nat) (r : VkBufferCopy)
    (skip : bool) : bool * list Event :=
  let hazard_ :=
    (SyncValidator_DetectHazard tracker SYNC_TRANSFER_TRANSFER_READ srcBuffer r).1 in
  if is_hazard hazard_ then
    let m := {| msg_object := srcBuffer;
                msg_vuid := string_SyncHazardVUID (hazard hazard_);
                msg_hazard := string_SyncHazard (hazard hazard_);
                msg_buffer := "srcBuffer";
                msg_region := region |} in
    (skip || log_msg m,
     [EvDetectHazard SYNC_TRANSFER_TRANSFER_READ srcBuffer region; EvLogMsg m])
  else
    let hazard_ :=
      (SyncValidator_DetectHazard tracker SYNC_TRANSFER_TRANSFER_WRITE dstBuffer r).1 in
    if is_hazard hazard_ then
      let m := {| msg_object := dstBuffer;
                  msg_vuid := string_SyncHazardVUID (hazard hazard_);
                  msg_hazard := string_SyncHazard (hazard hazard_);
                  msg_buffer := "dstBuffer";
                  msg_region := region |} in
      (skip || log_msg m,
       [EvDetectHazard SYNC_TRANSFER_TRANSFER_READ srcBuffer region;
        EvDetectHazard SYNC_TRANSFER_TRANSFER_WRITE dstBuffer region;
        EvLogMsg m])
    else
      (skip,
       [EvDetectHazard SYNC_TRANSFER_TRANSFER_READ srcBuffer region;
        EvDetectHazard SYNC_TRANSFER_TRANSFER_WRITE dstBuffer region]).

(** The region loop; [region] is the index of the head of [pRegions]. *)
Fixpoint validate_regions (tracker : ResourceAccessTracker)
    (srcBuffer dstBuffer : VkBuffer) (pRegions : list VkBufferCopy)
    (region : nat) (skip : bool) : bool * list Event :=
  match pRegions with
  | [] => (skip, [])
  | r :: rest =>
      let '(skip, events) :=
        validate_region tracker srcBuffer dstBuffer region r skip in
      if skip then (skip, events)
      else
        let '(skip, events') :=
          validate_regions tracker srcBuffer dstBuffer rest (S region) skip in
        (skip, events ++ events')
  end.

(** The tracker of the command buffer may be absent ([if (tracker)]).  The
    two lookups ahead of the loop ([src_access], [dst_access]) are not used
    by the source and are left out. *)
Definition PreCallValidateCmdCopyBuffer
    (tracker : option ResourceAccessTracker) (srcBuffer dstBuffer : VkBuffer)
    (pRegions : list VkBufferCopy) : bool * list Event :=
  match tracker with
  | Some tracker => validate_regions tracker srcBuffer dstBuffer pRegions 0 false
  | None => (false, [])
  end.

End Validator.

(** ** The record phase of a copy *)

Section Recorder.
Context `{!SyncStageAccessTables}.

(** The state a tracker creates for a resource on first touch: the default
    constructor of [ResourceAccessState] is declared in the header. *)
Variable ResourceAccessState_new : ResourceAccessState.

(** Modelled from the spec: the overload of [Get] on a tracker that is not
    [const] ([GetOrCreate]): the entry of the resource, created on first
    touch.  The tracker is returned next to the state found. *)
Definition Tracker_Get (tracker : ResourceAccessTracker) (buffer_ : VkBuffer)
    : ResourceAccessState * ResourceAccessTracker :=
  match tracker !! buffer_ with
  | Some access_state => (access_state, tracker)
  | None =>
      (ResourceAccessState_new,
       <[buffer_ := ResourceAccessState_new]> tracker)
  end.

(** [SyncValidator::UpdateAccessState]: [Update] acts on the entry in place;
    [tag_] is the validator's member [tag].  [None] is the failed assertion
    of [Update]. *)
Definition UpdateAccessState (tracker : ResourceAccessTracker)
    (current_usage : SyncStageAccessIndex) (buffer_ : VkBuffer)
    (region : VkBufferCopy) (tag_ : ResourceUsageTag)
    : option ResourceAccessTracker :=
  let '(access_state, tracker) := Tracker_Get tracker buffer_ in
  match Update access_state current_usage tag_ with
  | Some access_state => Some (<[buffer_ := access_state]> tracker)
  | None => None
  end.

(** The region loop of [PreCallRecordCmdCopyBuffer]. *)
Fixpoint record_regions (tracker : ResourceAccessTracker)
    (srcBuffer dstBuffer : VkBuffer) (pRegions : list VkBufferCopy)
    (tag_ : ResourceUsageTag) : option ResourceAccessTracker :=
  match pRegions with
  | [] => Some tracker
  | r :: rest =>
      match UpdateAccessState tracker SYNC_TRANSFER_TRANSFER_READ srcBuffer r
              tag_ with
      | None => None
      | Some tracker =>
          match UpdateAccessState tracker SYNC_TRANSFER_TRANSFER_WRITE
                  dstBuffer r tag_ with
          | None => None
          | Some tracker =>
              record_regions tracker srcBuffer dstBuffer rest tag_
          end
      end
  end.

(** [SyncValidator::PreCallRecordCmdCopyBuffer]; a missing tracker fails
    [assert(tracker)]. *)
Definition PreCallRecordCmdCopyBuffer (tracker : option ResourceAccessTracker)
    (srcBuffer dstBuffer : VkBuffer) (pRegions : list VkBufferCopy)
    (tag_ : ResourceUsageTag) : option ResourceAccessTracker :=
  match tracker with
  | None => None
  | Some tracker => record_regions tracker srcBuffer dstBuffer pRegions tag_
  end.

End Recorder.

(** [SyncValidator::PreCallValidateCmdPipelineBarrier]: no check yet. *)
Definition PreCallValidateCmdPipelineBarrier (srcStageMask dstStageMask : Z)
    (pMemoryBarriers : list VkMemoryBarrier)
    (pBufferMemoryBarriers : list VkBufferMemoryBarrier) : bool :=
  false.

(** ** Predicates the statements use *)

(** What the recording operations maintain about the live read records
    besides the stage mask: every record's stage is a single bit, and no two
    records share a stage. *)
Definition reads_wf (s : ResourceAccessState) : Prop :=
  read_stages_inv s
  ∧ Forall (λ r, is_single_bit (stage r) = true) (live_reads s)
  ∧ NoDup (stage <$> live_reads s).

(** [s'] differs from [s] at most in [write_barriers], which has only gained
    bits. *)
Definition write_scope_extended (s s' : ResourceAccessState) : Prop :=
  last_reads s' = last_reads s
  ∧ last_read_count s' = last_read_count s
  ∧ last_read_stages s' = last_read_stages s
  ∧ last_write s' = last_write s
  ∧ write_tag s' = write_tag s
  ∧ ∃ extra, write_barriers s' = Z.lor (write_barriers s) extra.

(** The states a resource goes through from [s0] on. *)
Section Reachability.
Context `{!SyncStageAccessTables}.

Inductive reachable (s0 : ResourceAccessState) : ResourceAccessState → Prop :=
  | reachable_start : reachable s0 s0
  | reachable_step (s s' : ResourceAccessState) (op : AccessOp) :
      reachable s0 s → step s op = Some s' → reachable s0 s'.

End Reachability.

(** The state the transfer write of a copy leaves, recorded with [tag_]. *)
Section RecordedWrite.
Context `{!SyncStageAccessTables}.

Definition records_write (s : ResourceAccessState) (tag_ : ResourceUsageTag)
    : Prop :=
  last_write s = FlagBit SYNC_TRANSFER_TRANSFER_WRITE
  ∧ write_tag s = tag_
  ∧ write_barriers s = 0
  ∧ last_read_count s = 0%nat
  ∧ last_read_stages s = 0.

End RecordedWrite.

(** *** Copy validation, region by region *)

Section CopySpec.
Context `{!SyncStageAccessTables}.
Variable log_msg : LogMsg → bool.
Variable tracker : ResourceAccessTracker.
Variables srcBuffer dstBuffer : VkBuffer.

(** The hazard of a usage on a buffer, read off the tracker. *)
Definition buffer_hazard (current_usage : SyncStageAccessIndex)
    (buffer_ : VkBuffer) : HazardResult :=
  match tracker !! buffer_ with
  | Some access_state => DetectHazard access_state current_usage
  | None => HazardResult_default
  end.

(** The report of a hazard [h] on [buffer_] in region [region]. *)
Definition copy_report (buffer_ : VkBuffer) (h : HazardResult) (name : string)
    (region : nat) : LogMsg :=
  {| msg_object := buffer_;
     msg_vuid := string_SyncHazardVUID (hazard h);
     msg_hazard := string_SyncHazard (hazard h);
     msg_buffer := name;
     msg_region := region |}.

(** What checking one region consists of: the source is queried for the read
    usage; a hazard there is reported, and only without one is the
    destination queried for the write usage, and a hazard there reported. *)
Definition copy_region_events (region : nat) : list Event :=
  EvDetectHazard SYNC_TRANSFER_TRANSFER_READ srcBuffer region ::
  (if is_hazard (buffer_hazard SYNC_TRANSFER_TRANSFER_READ srcBuffer) then
     [EvLogMsg (copy_report srcBuffer
                  (buffer_hazard SYNC_TRANSFER_TRANSFER_READ srcBuffer)
                  "srcBuffer" region)]
   else
     EvDetectHazard SYNC_TRANSFER_TRANSFER_WRITE dstBuffer region ::
     (if is_hazard (buffer_hazard SYNC_TRANSFER_TRANSFER_WRITE dstBuffer) then
        [EvLogMsg (copy_report dstBuffer
                     (buffer_hazard SYNC_TRANSFER_TRANSFER_WRITE dstBuffer)
                     "dstBuffer" region)]
      else [])).

(** Whether [log_msg] answered true to the report of a region, if it had
    one. *)
Definition copy_region_skip (region : nat) : bool :=
  if is_hazard (buffer_hazard SYNC_TRANSFER_TRANSFER_READ srcBuffer) then
    log_msg (copy_report srcBuffer
               (buffer_hazard SYNC_TRANSFER_TRANSFER_READ srcBuffer)
               "srcBuffer" region)
  else if is_hazard (buffer_hazard SYNC_TRANSFER_TRANSFER_WRITE dstBuffer) then
    log_msg (copy_report dstBuffer
               (buffer_hazard SYNC_TRANSFER_TRANSFER_WRITE dstBuffer)
               "dstBuffer" region)
  else false.

(** Whether a region has a hazard; hazards are tracked per whole buffer, so
    the answer is the same for every region. *)
Definition copy_has_hazard : bool :=
  is_hazard (buffer_hazard SYNC_TRANSFER_TRANSFER_READ srcBuffer)
  || is_hazard (buffer_hazard SYNC_TRANSFER_TRANSFER_WRITE dstBuffer).

End CopySpec.

(** ** A worked instance: transfer reads and writes *)

(** Two stage/access indices, the transfer read (index 0, flag bit 1) and the
    transfer write (index 1, flag bit 2), both at the transfer stage
    ([VK_PIPELINE_STAGE_TRANSFER_BIT], 0x1000), with the access bits
    [VK_ACCESS_TRANSFER_READ_BIT] (0x800) and [VK_ACCESS_TRANSFER_WRITE_BIT]
    (0x1000) in the access table.  Called with a stage scope, [AccessScope]
    intersects it with the scope of the access mask. *)
Definition transfer_tables : SyncStageAccessTables :=
  {| FlagBit := λ i, Z.shiftl 1 (Z.of_nat i);
     PipelineStageBit := λ _, 4096;
     IsRead := λ bit, negb (Z.land bit 1 =? 0);
     IsRead_index := λ i, negb (Z.land (Z.shiftl 1 (Z.of_nat i)) 1 =? 0);
     syncStageAccessMaskByStageBit := [(4096, 3)];
     syncStageAccessMaskByAccessBit := [(2048, 1); (4096, 2)];
     SYNC_TRANSFER_TRANSFER_READ := 0%nat;
     SYNC_TRANSFER_TRANSFER_WRITE := 1%nat;
     AccessScope_stage_scope :=
       λ stage_scope accesses,
         Z.land stage_scope (AccessScopeImpl accesses [(2048, 1); (4096, 2)]) |}.

(** A state right after a transfer write with tag 1, with room for 32 read
    records. *)
Definition written_state : ResourceAccessState :=
  {| write_barriers := 0;
     write_tag := 1%N;
     last_write := 2;
     last_reads := replicate 32 inhabitant;
     last_read_count := 0;
     last_read_stages := 0 |}.

(** [written_state] after a memory barrier from the transfer write to both
    transfer accesses. *)
Definition synced_state : ResourceAccessState :=
  {| write_barriers := 3;
     write_tag := 1%N;
     last_write := 2;
     last_reads := replicate 32 inhabitant;
     last_read_count := 0;
     last_read_stages := 0 |}.

(** [synced_state] after a transfer read with tag 2. *)
Definition read_state : ResourceAccessState :=
  {| write_barriers := 3;
     write_tag := 1%N;
     last_write := 2;
     last_reads :=
       {| stage := 4096; barriers := 0; tag := 2%N |} :: replicate 31 inhabitant;
     last_read_count := 1;
     last_read_stages := 4096 |}.

(** [read_state] after a second transfer read, with tag 3. *)
Definition reread_state : ResourceAccessState :=
  {| write_barriers := 3;
     write_tag := 1%N;
     last_write := 2;
     last_reads :=
       {| stage := 4096; barriers := 0; tag := 3%N |} :: replicate 31 inhabitant;
     last_read_count := 1;
     last_read_stages := 4096 |}.

Definition two_regions : list VkBufferCopy :=
  [ {| srcOffset := 0; dstOffset := 0; size_ := 16 |};
    {| srcOffset := 16; dstOffset := 16; size_ := 16 |} ]%N.

(** A tracker that knows buffer 7 only, written and not synchronized. *)
Definition one_buffer_tracker : ResourceAccessTracker :=
  {[ 7%N := written_state ]}.

(** A logging layer that never asks to skip the call. *)
Definition log_msg_quiet (m : LogMsg) : bool := false.

(** A state as a tracker may create it: no write, no read, and every
    stage/access pair of a 64-bit scope granted. *)
Definition untouched_state : ResourceAccessState :=
  {| write_barriers := Z.ones 64;
     write_tag := 0%N;
     last_write := 0;
     last_reads := replicate 32 inhabitant;
     last_read_count := 0;
     last_read_stages := 0 |}.

(** A logging layer that asks to skip at every report. *)
Definition log_msg_strict (m : LogMsg) : bool := true.

(** * Facts *)

(** *** Bit-level facts *)

Lemma is_single_bit_pow2 (k : Z) :
  is_single_bit k = true → ∃ n, 0 ≤ n ∧ k = 2 ^ n.
Proof.
  unfold is_single_bit. intros [Hpos Hk]%andb_true_iff.
  apply Z.ltb_lt in Hpos. apply Z.eqb_eq in Hk.
  exists (Z.log2 k). split; [apply Z.log2_nonneg | exact Hk].
Qed.

Lemma land_pow2_above (a n : Z) :
  0 ≤ a → 0 ≤ n → a < 2 ^ n → Z.land a (2 ^ n) = 0.
Proof.
  intros Ha Hn Hlt. apply Z.bits_inj'. intros i Hi.
  rewrite Z.land_spec, Z.bits_0, Z.pow2_bits_eqb by assumption.
  destruct (Z.eqb_spec n i) as [->|Hne]; [|apply andb_false_r].
  rewrite andb_true_r.
  destruct (Z.eq_dec a 0) as [->|Hnz]; [apply Z.bits_0|].
  apply Z.bits_above_log2; [assumption|].
  apply Z.log2_lt_pow2; lia.
Qed.

Lemma land_single_bit_above (a k : Z) :
  0 ≤ a → is_single_bit k = true → a < k → Z.land a k = 0.
Proof.
  intros Ha Hk Hlt. destruct (is_single_bit_pow2 k Hk) as (n & Hn & ->).
  by apply land_pow2_above.
Qed.

(** Past the break point nothing matches any more. *)
Lemma AccessScopeNaive_loop_above (flag_mask : Z) (map : ScopeMap) :
  0 ≤ flag_mask →
  ∀ prev scope,
    flag_mask < prev ∨ (∃ e rest, map = e :: rest ∧ flag_mask < e.1) ∨ map = [] →
    ascending_bits_from prev map = true →
    AccessScopeNaive_loop flag_mask map scope = scope.
Proof.
  intros Hmask. induction map as [|e rest IH]; intros prev scope Hlow Hasc.
  - reflexivity.
  - simpl in Hasc. apply andb_true_iff in Hasc as [Hhd Hrest].
    apply andb_true_iff in Hhd as [Hprev Hbit]. apply Z.ltb_lt in Hprev.
    assert (flag_mask < e.1) as Hlt.
    { destruct Hlow as [H|[(e' & r' & Heq & H)|H]];
        [lia | by inversion Heq; subst | discriminate]. }
    simpl. rewrite (land_single_bit_above _ _ Hmask Hbit Hlt). simpl.
    apply (IH e.1); [by left | assumption].
Qed.

Lemma AccessScopeImpl_loop_naive (flag_mask : Z) (map : ScopeMap) :
  0 ≤ flag_mask →
  ∀ prev scope,
    ascending_bits_from prev map = true →
    AccessScopeImpl_loop flag_mask map scope
    = AccessScopeNaive_loop flag_mask map scope.
Proof.
  intros Hmask.
  induction map as [|e rest IH]; intros prev scope Hasc; [reflexivity|].
  simpl. destruct (Z.ltb_spec flag_mask e.1) as [Hlt|Hge].
  - symmetry.
    change (AccessScopeNaive_loop flag_mask (e :: rest) scope = scope).
    apply (AccessScopeNaive_loop_above _ _ Hmask prev); [|assumption].
    right; left. by exists e, rest.
  - simpl in Hasc. apply andb_true_iff in Hasc as [_ Hrest].
    by apply (IH e.1).
Qed.

(** ** The loops of the access state *)

Section AccessStateFacts.
Context `{!SyncStageAccessTables}.

(** *** The write-after-read scan *)

Lemma DetectHazard_reads_clean (s : ResourceAccessState) (usage_stage : Z)
    (n read_index : nat) (h : HazardResult) :
  (∀ j, (read_index ≤ j < read_index + n)%nat →
        IsReadHazard usage_stage (last_reads s !!! j) = false) →
  DetectHazard_reads s usage_stage read_index n h = h.
Proof.
  revert read_index. induction n as [|n IH]; intros i Hclean; [reflexivity|].
  simpl. rewrite (Hclean i) by lia. apply IH. intros j Hj. apply Hclean. lia.
Qed.

Lemma DetectHazard_reads_first (s : ResourceAccessState) (usage_stage : Z)
    (n read_index k : nat) (h : HazardResult) :
  (read_index ≤ k < read_index + n)%nat →
  IsReadHazard usage_stage (last_reads s !!! k) = true →
  (∀ j, (read_index ≤ j < k)%nat →
        IsReadHazard usage_stage (last_reads s !!! j) = false) →
  DetectHazard_reads s usage_stage read_index n h
  = {| hazard := WRITE_AFTER_READ; hazard_tag := tag (last_reads s !!! k) |}.
Proof.
  revert read_index. induction n as [|n IH]; intros i Hk Hhit Hbefore; [lia|].
  simpl. destruct (decide (i = k)) as [->|Hne].
  - by rewrite Hhit.
  - rewrite (Hbefore i) by lia. apply IH; [lia|assumption|].
    intros j Hj. apply Hbefore. lia.
Qed.

(** A bounded search either finds a first hit or none at all. *)
Lemma first_index_dec (P : nat → bool) (n read_index : nat) :
  (∀ j, (read_index ≤ j < read_index + n)%nat → P j = false)
  ∨ (∃ k, (read_index ≤ k < read_index + n)%nat ∧ P k = true
          ∧ ∀ j, (read_index ≤ j < k)%nat → P j = false).
Proof.
  revert read_index. induction n as [|n IH]; intros i.
  - left. intros j Hj. lia.
  - destruct (P i) eqn:Hi.
    + right. exists i. split; [lia|]. split; [assumption|]. intros j Hj. lia.
    + destruct (IH (S i)) as [Hnone|(k & Hk & Hhit & Hbefore)].
      * left. intros j Hj. destruct (decide (j = i)) as [->|]; [assumption|].
        apply Hnone. lia.
      * right. exists k. split; [lia|]. split; [assumption|].
        intros j Hj. destruct (decide (j = i)) as [->|]; [assumption|].
        apply Hbefore. lia.
Qed.

(** *** Unions of stages *)

Lemma foldr_lor_snoc (xs : list Z) (x : Z) :
  foldr Z.lor 0 (xs ++ [x]) = Z.lor (foldr Z.lor 0 xs) x.
Proof.
  induction xs as [|y xs IH]; simpl.
  - by rewrite Z.lor_0_r, Z.lor_0_l.
  - by rewrite IH, Z.lor_assoc.
Qed.

Lemma stages_union_snoc (l : list ReadState) (r : ReadState) :
  stages_union (l ++ [r]) = Z.lor (stages_union l) (stage r).
Proof. unfold stages_union. rewrite fmap_app. apply foldr_lor_snoc. Qed.

Lemma stages_union_ext (l1 l2 : list ReadState) :
  stage <$> l1 = stage <$> l2 → stages_union l1 = stages_union l2.
Proof. unfold stages_union. by intros ->. Qed.

Lemma land_stages_union_0 (S : Z) (l : list ReadState) :
  Z.land S (stages_union l) = 0 → ∀ r, r ∈ l → Z.land S (stage r) = 0.
Proof.
  unfold stages_union. induction l as [|x l IH]; intros Hz r Hr.
  - by apply elem_of_nil in Hr.
  - simpl in Hz. rewrite Z.land_lor_distr_r in Hz.
    apply Z.lor_eq_0_iff in Hz as [Hx Hl].
    apply elem_of_cons in Hr as [->|Hr]; [assumption|by apply IH].
Qed.

Lemma land_stages_union_hit (S : Z) (l : list ReadState) :
  Z.land S (stages_union l) ≠ 0 → ∃ r, r ∈ l ∧ Z.land S (stage r) ≠ 0.
Proof.
  unfold stages_union. induction l as [|x l IH]; simpl; intros Hnz.
  - by rewrite Z.land_0_r in Hnz.
  - rewrite Z.land_lor_distr_r in Hnz.
    destruct (Z.eq_dec (Z.land S (stage x)) 0) as [Hx|Hx].
    + rewrite Hx, Z.lor_0_l in Hnz. destruct (IH Hnz) as (r & Hr & Hhit).
      exists r. split; [by apply elem_of_cons; right|assumption].
    + exists x. split; [by apply elem_of_cons; left|assumption].
Qed.

(** *** The restart search of [Update] *)

Lemma Update_restart_length (reads : list ReadState) (S : Z)
    (t : ResourceUsageTag) (n read_index : nat) :
  length (Update_restart reads S t read_index n) = length reads.
Proof.
  revert read_index. induction n as [|n IH]; intros i; simpl; [reflexivity|].
  destruct (stage (reads !!! i) =? S); [by rewrite length_insert|apply IH].
Qed.

Lemma insert_same_stage (reads : list ReadState) (i : nat) (r : ReadState) :
  stage r = stage (reads !!! i) →
  stage <$> <[i := r]> reads = stage <$> reads.
Proof.
  intros Hst. rewrite list_fmap_insert.
  destruct (decide (i < length reads)%nat) as [Hlt|Hge].
  - apply list_insert_id. rewrite list_lookup_fmap.
    destruct (lookup_lt_is_Some_2 reads i Hlt) as [x Hx].
    rewrite Hx. simpl. f_equal.
    by rewrite Hst, (list_lookup_total_correct _ _ _ Hx).
  - apply list_insert_ge. rewrite length_fmap. lia.
Qed.

Lemma Update_restart_stages (reads : list ReadState) (S : Z)
    (t : ResourceUsageTag) (n read_index : nat) :
  stage <$> Update_restart reads S t read_index n = stage <$> reads.
Proof.
  revert read_index. induction n as [|n IH]; intros i; simpl; [reflexivity|].
  destruct (stage (reads !!! i) =? S); [by apply insert_same_stage|apply IH].
Qed.

Lemma Update_restart_spec (reads : list ReadState) (S : Z)
    (t : ResourceUsageTag) (n read_index : nat) :
  ((∀ j, (read_index ≤ j < read_index + n)%nat → stage (reads !!! j) ≠ S)
   ∧ Update_restart reads S t read_index n = reads)
  ∨ (∃ k, (read_index ≤ k < read_index + n)%nat
          ∧ stage (reads !!! k) = S
          ∧ (∀ j, (read_index ≤ j < k)%nat → stage (reads !!! j) ≠ S)
          ∧ Update_restart reads S t read_index n
            = <[k := {| stage := S; barriers := 0; tag := t |}]> reads).
Proof.
  revert read_index. induction n as [|n IH]; intros i; simpl.
  - left. split; [intros j Hj; lia|reflexivity].
  - destruct (Z.eqb_spec (stage (reads !!! i)) S) as [Heq|Hne].
    + right. exists i. split; [lia|]. split; [assumption|].
      split; [intros j Hj; lia|by rewrite Heq].
    + destruct (IH (Datatypes.S i)) as [[Hnone Hres]|(k & Hk & Hhit & Hbefore & Hres)].
      * left. split; [|assumption]. intros j Hj.
        destruct (decide (j = i)) as [->|]; [assumption|apply Hnone; lia].
      * right. exists k. split; [lia|]. split; [assumption|].
        split; [|assumption]. intros j Hj.
        destruct (decide (j = i)) as [->|]; [assumption|apply Hbefore; lia].
Qed.

(** *** The loop of [ApplyExecutionBarrier] *)

Lemma ApplyExecutionBarrier_loop_length (src dst : Z) (n read_index : nat)
    (reads : list ReadState) :
  length (ApplyExecutionBarrier_loop reads src dst read_index n) = length reads.
Proof.
  revert read_index reads. induction n as [|n IH]; intros i reads; simpl;
    [reflexivity|]. by rewrite IH, length_insert.
Qed.

Lemma ApplyExecutionBarrier_loop_lookup (src dst : Z) (n read_index j : nat)
    (reads : list ReadState) :
  ApplyExecutionBarrier_loop reads src dst read_index n !! j
  = if decide (read_index ≤ j < read_index + n)%nat
    then barrier_read src dst <$> reads !! j
    else reads !! j.
Proof.
  revert read_index reads. induction n as [|n IH]; intros i reads; simpl.
  - case_decide; [lia|reflexivity].
  - rewrite IH. destruct (decide (j = i)) as [->|Hne].
    + rewrite decide_False by lia. rewrite decide_True by lia.
      destruct (decide (i < length reads)%nat) as [Hlt|Hge].
      * rewrite list_lookup_insert_eq by assumption.
        destruct (lookup_lt_is_Some_2 reads i Hlt) as [x Hx].
        by rewrite Hx, (list_lookup_total_correct _ _ _ Hx).
      * rewrite list_insert_ge by lia.
        by rewrite (lookup_ge_None_2 reads i) by lia.
    + rewrite list_lookup_insert_ne by done.
      repeat case_decide; try reflexivity; lia.
Qed.

Lemma barrier_read_stage (src dst : Z) (r : ReadState) :
  stage (barrier_read src dst r) = stage r.
Proof. unfold barrier_read. by destruct (negb _). Qed.

Lemma barrier_read_tag (src dst : Z) (r : ReadState) :
  tag (barrier_read src dst r) = tag r.
Proof. unfold barrier_read. by destruct (negb _). Qed.

Lemma ApplyExecutionBarrier_loop_stages (src dst : Z) (n read_index : nat)
    (reads : list ReadState) :
  stage <$> ApplyExecutionBarrier_loop reads src dst read_index n
  = stage <$> reads.
Proof.
  apply list_eq. intros j. rewrite !list_lookup_fmap.
  rewrite ApplyExecutionBarrier_loop_lookup. case_decide; [|reflexivity].
  destruct (reads !! j); simpl; [|reflexivity].
  by rewrite barrier_read_stage.
Qed.

End AccessStateFacts.

(** ** The name tables and the scope calculator *)

(** C4: the identifier table of [string_SyncHazardVUID] is the specified one,
    and so are three of the four labels of [string_SyncHazard]; the label the
    code returns for [NONE] is the literal ["NONR"], which differs from the
    specified ["NONE"]. *)
Theorem string_SyncHazard_tables :
  string_SyncHazardVUID NONE = "SYNC-NONE"
  ∧ string_SyncHazardVUID READ_AFTER_WRITE = "SYNC-HAZARD-READ_AFTER_WRITE"
  ∧ string_SyncHazardVUID WRITE_AFTER_READ = "SYNC-HAZARD-WRITE_AFTER_READ"
  ∧ string_SyncHazardVUID WRITE_AFTER_WRITE = "SYNC-HAZARD-WRITE_AFTER_WRITE"
  ∧ string_SyncHazard READ_AFTER_WRITE = "READ_AFTER_WRITE"
  ∧ string_SyncHazard WRITE_AFTER_READ = "WRITE_AFTER_READ"
  ∧ string_SyncHazard WRITE_AFTER_WRITE = "WRITE_AFTER_WRITE"
  ∧ string_SyncHazard NONE = "NONR"
  ∧ string_SyncHazard NONE ≠ "NONE".
Proof. repeat split; try reflexivity. discriminate. Qed.

(** C8: on a non-negative mask (the flag types are unsigned) and a table
    whose keys are single bits in strictly ascending order, the scan with the
    early [break] computes the same union as the full scan. *)
Theorem AccessScopeImpl_refines_naive (flag_mask : Z) (map : ScopeMap) :
  0 ≤ flag_mask →
  ascending_single_bit_keys map = true →
  AccessScopeImpl flag_mask map = AccessScopeNaive flag_mask map.
Proof.
  intros Hmask Hasc.
  exact (AccessScopeImpl_loop_naive flag_mask map Hmask 0 0 Hasc).
Qed.


(** ** The access state *)

Section AccessStateTheorems.
Context `{!SyncStageAccessTables}.

(** Bitwise containment carries through two inclusions. *)
Lemma land_lnot_covered (u B dst : Z) :
  Z.land B u = u → Z.land dst B = B → Z.land u (Z.lnot dst) = 0.
Proof.
  intros Hu HB. apply Z.bits_inj'. intros i Hi.
  apply (f_equal (λ z, Z.testbit z i)) in Hu, HB.
  rewrite Z.land_spec in Hu, HB.
  rewrite Z.land_spec, Z.lnot_spec, Z.bits_0 by assumption.
  destruct (Z.testbit u i), (Z.testbit B i), (Z.testbit dst i);
    simpl in *; congruence.
Qed.

Lemma read_stages_inv_empty (s : ResourceAccessState) :
  last_read_count s = 0%nat → last_read_stages s = 0 → read_stages_inv s.
Proof.
  unfold read_stages_inv, live_reads. intros -> ->. by rewrite take_0.
Qed.

Lemma live_reads_append (s : ResourceAccessState) (r : ReadState) :
  (last_read_count s < length (last_reads s))%nat →
  take (S (last_read_count s)) (<[last_read_count s := r]> (last_reads s))
  = live_reads s ++ [r].
Proof.
  intros Hlt. unfold live_reads.
  rewrite (take_S_r _ _ r) by (by apply list_lookup_insert_eq).
  by rewrite take_insert_ge by lia.
Qed.

(** C1: for a write-class usage, [DetectHazard] tests write-after-write
    first: with a prior write that the usage is not covered against, the
    result is WRITE_AFTER_WRITE with the stored write tag.  Only otherwise are
    the read records scanned, in stored order: the result is WRITE_AFTER_READ
    with the tag of the first live record that is a read hazard, or no hazard
    when there is none.  The result is one [HazardResult] in every case. *)
Theorem DetectHazard_write_usage_order (s : ResourceAccessState)
    (usage_index : SyncStageAccessIndex) :
  IsRead (FlagBit usage_index) = false →
  (last_write s ≠ 0 → IsWriteHazard s (FlagBit usage_index) = true →
   DetectHazard s usage_index
   = {| hazard := WRITE_AFTER_WRITE; hazard_tag := write_tag s |})
  ∧ (last_write s = 0 ∨ IsWriteHazard s (FlagBit usage_index) = false →
     (∃ k, (k < last_read_count s)%nat
           ∧ IsReadHazard (PipelineStageBit usage_index) (last_reads s !!! k) = true
           ∧ (∀ j, (j < k)%nat →
                   IsReadHazard (PipelineStageBit usage_index)
                     (last_reads s !!! j) = false)
           ∧ DetectHazard s usage_index
             = {| hazard := WRITE_AFTER_READ;
                  hazard_tag := tag (last_reads s !!! k) |})
     ∨ ((∀ j, (j < last_read_count s)%nat →
              IsReadHazard (PipelineStageBit usage_index)
                (last_reads s !!! j) = false)
        ∧ DetectHazard s usage_index = HazardResult_default)).
Proof.
  intros Hwrite. unfold DetectHazard. rewrite Hwrite. simpl. split.
  - intros Hlw Hhaz. rewrite Hhaz.
    by destruct (Z.eqb_spec (last_write s) 0).
  - intros Hno.
    assert (negb (last_write s =? 0) && IsWriteHazard s (FlagBit usage_index)
            = false) as ->.
    { destruct Hno as [-> | ->]; [reflexivity|apply andb_false_r]. }
    destruct (first_index_dec
                (λ j, IsReadHazard (PipelineStageBit usage_index)
                        (last_reads s !!! j))
                (last_read_count s) 0) as [Hnone|(k & Hk & Hhit & Hbefore)].
    + right. split; [intros j Hj; apply Hnone; lia|].
      apply DetectHazard_reads_clean. assumption.
    + left. exists k. split; [lia|]. split; [assumption|].
      split; [intros j Hj; apply Hbefore; lia|].
      by apply DetectHazard_reads_first.
Qed.

Lemma read_stages_inv_preserved (s s' : ResourceAccessState) (op : AccessOp) :
  read_stages_inv s → step s op = Some s' → read_stages_inv s'.
Proof.
  intros Hinv Hstep. destruct op as [u t|src dst|src dst]; simpl in Hstep.
  - unfold Update in Hstep. destruct (IsRead_index u).
    + destruct (negb _) eqn:Hpresent.
      * inversion Hstep; subst; clear Hstep.
        unfold read_stages_inv, live_reads in *. simpl. rewrite Hinv.
        apply stages_union_ext. rewrite !fmap_take.
        by rewrite Update_restart_stages.
      * destruct (Nat.ltb_spec (last_read_count s) (length (last_reads s)))
          as [Hlt|Hge]; [|discriminate].
        inversion Hstep; subst; clear Hstep.
        unfold read_stages_inv. unfold live_reads at 1. simpl.
        rewrite live_reads_append by assumption.
        rewrite stages_union_snoc. simpl. by rewrite Hinv.
    + inversion Hstep; subst; clear Hstep. by apply read_stages_inv_empty.
  - inversion Hstep; subst; clear Hstep.
    unfold read_stages_inv, live_reads in *. simpl. rewrite Hinv.
    apply stages_union_ext. rewrite !fmap_take.
    by rewrite ApplyExecutionBarrier_loop_stages.
  - inversion Hstep; subst; clear Hstep. unfold ApplyMemoryBarrier.
    by destruct (negb _).
Qed.

(** From a state without read records the invariant holds for good. *)
Lemma read_stages_inv_reachable (s0 s : ResourceAccessState) :
  last_read_count s0 = 0%nat → last_read_stages s0 = 0 →
  reachable s0 s → read_stages_inv s.
Proof.
  intros Hc Hm Hreach. induction Hreach as [|s s' op _ IH Hstep].
  - by apply read_stages_inv_empty.
  - by apply (read_stages_inv_preserved s s' op).
Qed.

(** C2: [last_read_stages] stays the union of the stages of the live read
    records under every mutating operation ([Update] for a read or a write,
    [ApplyExecutionBarrier], [ApplyMemoryBarrier]; [DetectHazard] is a
    function of the state and returns no state).  An [Update] can only fail
    on the capacity assertion of a read at a new stage.  A write-class
    [Update] always succeeds and leaves no live read record and an empty
    stage mask next to the recorded write. *)
Theorem read_stages_inv_step (s : ResourceAccessState) (op : AccessOp) :
  read_stages_inv s →
  (∀ s', step s op = Some s' → read_stages_inv s')
  ∧ (step s op = None →
     ∃ usage_index tag_,
       op = OpUpdate usage_index tag_ ∧ IsRead_index usage_index = true
       ∧ Z.land (PipelineStageBit usage_index) (last_read_stages s) = 0
       ∧ (length (last_reads s) ≤ last_read_count s)%nat)
  ∧ (∀ usage_index tag_,
       op = OpUpdate usage_index tag_ → IsRead_index usage_index = false →
       ∃ s', step s op = Some s'
             ∧ live_reads s' = [] ∧ last_read_count s' = 0%nat
             ∧ last_read_stages s' = 0
             ∧ last_write s' = FlagBit usage_index ∧ write_tag s' = tag_
             ∧ write_barriers s' = 0).
Proof.
  intros Hinv. split; [|split].
  - intros s' Hstep. by apply (read_stages_inv_preserved s s' op).
  - intros Hnone. destruct op as [u t|src dst|src dst]; simpl in Hnone;
      [|discriminate..].
    exists u, t. unfold Update in Hnone.
    destruct (IsRead_index u); [|discriminate].
    destruct (Z.eqb_spec (Z.land (PipelineStageBit u) (last_read_stages s)) 0)
      as [Hz|Hnz]; simpl in Hnone; [|discriminate].
    destruct (Nat.ltb_spec (last_read_count s) (length (last_reads s)));
      [discriminate|]. done.
  - intros u t -> Hwrite. simpl. unfold Update. rewrite Hwrite.
    eexists. split; [reflexivity|]. by unfold live_reads.
Qed.

(** C3: after a write with access bit A is recorded (whatever the state was
    before, a fresh state included; the tag is arbitrary), a memory barrier
    whose source scope includes A and whose destination scope includes B
    makes [DetectHazard] answer no hazard for every usage whose flag bit lies
    within B, read-class usages among them. *)
Theorem covering_barrier_suppresses_read_after_write (s : ResourceAccessState)
    (write_usage read_usage : SyncStageAccessIndex) (tag_ : ResourceUsageTag)
    (src_scope dst_scope B : Z) :
  IsRead_index write_usage = false →
  FlagBit write_usage ≠ 0 →
  Z.land src_scope (FlagBit write_usage) = FlagBit write_usage →
  Z.land dst_scope B = B →
  Z.land B (FlagBit read_usage) = FlagBit read_usage →
  ∃ s1, Update s write_usage tag_ = Some s1
        ∧ write_barriers (ApplyMemoryBarrier s1 src_scope dst_scope) = dst_scope
        ∧ DetectHazard (ApplyMemoryBarrier s1 src_scope dst_scope) read_usage
          = HazardResult_default.
Proof.
  intros Hw HA Hsrc Hdst HB. unfold Update. rewrite Hw.
  eexists. split; [reflexivity|].
  unfold ApplyMemoryBarrier. simpl. rewrite Z.lor_0_r, Hsrc.
  destruct (Z.eqb_spec (FlagBit write_usage) 0) as [|_]; [done|]. simpl.
  split; [reflexivity|].
  unfold DetectHazard, IsWriteHazard. simpl.
  rewrite (land_lnot_covered _ B dst_scope) by assumption. simpl.
  by rewrite !andb_false_r.
Qed.

(** C6: [ApplyExecutionBarrier] changes nothing but the granted scopes of live
    read records: a live record gets [dstStageMask] ORed into its scope
    exactly when [srcStageMask] meets the union of its stage and the scope it
    already has, and keeps its scope otherwise.  When [srcStageMask] is
    disjoint from the stage and the scope of every live record, the whole
    state is unchanged. *)
Theorem ApplyExecutionBarrier_chains (s : ResourceAccessState)
    (srcStageMask dstStageMask : Z) :
  let s' := ApplyExecutionBarrier s srcStageMask dstStageMask in
  (∀ i r, (i < last_read_count s)%nat → last_reads s !! i = Some r →
     last_reads s' !! i
     = Some (if decide (Z.land srcStageMask (Z.lor (stage r) (barriers r)) ≠ 0)
             then {| stage := stage r;
                     barriers := Z.lor (barriers r) dstStageMask;
                     tag := tag r |}
             else r))
  ∧ (∀ i, (last_read_count s ≤ i)%nat → last_reads s' !! i = last_reads s !! i)
  ∧ length (last_reads s') = length (last_reads s)
  ∧ last_read_count s' = last_read_count s
  ∧ last_read_stages s' = last_read_stages s
  ∧ write_barriers s' = write_barriers s
  ∧ write_tag s' = write_tag s
  ∧ last_write s' = last_write s
  ∧ ((∀ i r, (i < last_read_count s)%nat → last_reads s !! i = Some r →
        Z.land srcStageMask (Z.lor (stage r) (barriers r)) = 0) →
     s' = s).
Proof.
  simpl. split; [|split; [|split; [|repeat split]]].
  - intros i r Hi Hr. rewrite ApplyExecutionBarrier_loop_lookup.
    rewrite decide_True by lia. rewrite Hr. simpl. f_equal.
    unfold barrier_read.
    destruct (Z.eqb_spec (Z.land srcStageMask (Z.lor (stage r) (barriers r))) 0)
      as [Hz|Hnz]; simpl.
    + by rewrite decide_False by (intros Hc; by apply Hc).
    + by rewrite decide_True.
  - intros i Hi. rewrite ApplyExecutionBarrier_loop_lookup.
    by rewrite decide_False by lia.
  - apply ApplyExecutionBarrier_loop_length.
  - intros Hdisj. destruct s as [wb wt lw reads cnt stages]. simpl in *.
    unfold ApplyExecutionBarrier. simpl. f_equal.
    apply list_eq. intros j. rewrite ApplyExecutionBarrier_loop_lookup.
    case_decide as Hj; [|reflexivity].
    destruct (reads !! j) as [r|] eqn:Hr; [|reflexivity]. simpl. f_equal.
    unfold barrier_read. rewrite (Hdisj j r) by (lia || assumption).
    reflexivity.
Qed.

End AccessStateTheorems.

(** ** One read record per pipeline stage *)

Section OneRecordPerStage.
Context `{!SyncStageAccessTables}.

Lemma is_single_bit_nonzero (k : Z) : is_single_bit k = true → k ≠ 0.
Proof.
  unfold is_single_bit. intros [Hpos _]%andb_true_iff.
  apply Z.ltb_lt in Hpos. lia.
Qed.

Lemma single_bits_meet (a b : Z) :
  is_single_bit a = true → is_single_bit b = true → Z.land a b ≠ 0 → a = b.
Proof.
  intros (n & Hn & ->)%is_single_bit_pow2 (m & Hm & ->)%is_single_bit_pow2 Hnz.
  destruct (Z.eq_dec n m) as [->|Hne]; [reflexivity|].
  exfalso. apply Hnz. apply Z.bits_inj'. intros i Hi.
  rewrite Z.land_spec, Z.bits_0, !Z.pow2_bits_eqb by assumption.
  destruct (Z.eqb_spec n i), (Z.eqb_spec m i); simpl; try reflexivity. lia.
Qed.

Lemma reads_wf_ext (s s' : ResourceAccessState) :
  last_read_stages s' = last_read_stages s →
  stage <$> live_reads s' = stage <$> live_reads s →
  reads_wf s → reads_wf s'.
Proof.
  intros Hmask Hstages (Hinv & Hbits & Hnodup). split; [|split].
  - unfold read_stages_inv. rewrite Hmask, Hinv. unfold stages_union.
    by rewrite Hstages.
  - assert (Forall (λ z, is_single_bit z = true) (stage <$> live_reads s'))
      as Hbits'.
    { rewrite Hstages. apply Forall_fmap. exact Hbits. }
    apply Forall_fmap in Hbits'. exact Hbits'.
  - by rewrite Hstages.
Qed.

Lemma reads_wf_empty (s : ResourceAccessState) :
  last_read_count s = 0%nat → last_read_stages s = 0 → reads_wf s.
Proof.
  intros Hc Hm. split; [by apply read_stages_inv_empty|].
  unfold live_reads. rewrite Hc, take_0. split; constructor.
Qed.

(** Every operation keeps [reads_wf], given that read usages carry a
    single-bit pipeline stage. *)
Lemma reads_wf_step (s s' : ResourceAccessState) (op : AccessOp) :
  (∀ u t, op = OpUpdate u t → IsRead_index u = true →
          is_single_bit (PipelineStageBit u) = true) →
  reads_wf s → step s op = Some s' → reads_wf s'.
Proof.
  intros Hbit Hwf Hstep. destruct op as [u t|src dst|src dst]; simpl in Hstep.
  - unfold Update in Hstep. destruct (IsRead_index u) eqn:Hread.
    + specialize (Hbit u t eq_refl Hread).
      destruct (Z.eqb_spec (Z.land (PipelineStageBit u) (last_read_stages s)) 0)
        as [Hz|Hnz]; simpl in Hstep.
      * destruct (Nat.ltb_spec (last_read_count s) (length (last_reads s)))
          as [Hlt|Hge]; [|discriminate].
        inversion Hstep; subst; clear Hstep.
        destruct Hwf as (Hinv & Hbits & Hnodup).
        assert (∀ r, r ∈ live_reads s → stage r ≠ PipelineStageBit u) as Hfresh.
        { intros r Hr Heq. rewrite Hinv in Hz.
          pose proof (land_stages_union_0 _ _ Hz r Hr) as Hmeet.
          rewrite Heq, Z.land_diag in Hmeet.
          by apply (is_single_bit_nonzero _ Hbit). }
        split; [|split].
        -- unfold read_stages_inv. unfold live_reads at 1. simpl.
           rewrite live_reads_append by assumption.
           rewrite stages_union_snoc. simpl. by rewrite Hinv.
        -- unfold live_reads at 1. simpl.
           rewrite live_reads_append by assumption.
           apply Forall_app. split; [assumption|]. by repeat constructor.
        -- unfold live_reads at 1. simpl.
           rewrite live_reads_append by assumption.
           rewrite fmap_app. apply NoDup_app. split; [assumption|].
           split; [|apply NoDup_singleton].
           intros x Hx Hin. simpl in Hin. apply list_elem_of_singleton in Hin.
           subst x. apply list_elem_of_fmap in Hx as (r & Heq & Hr).
           by apply (Hfresh r Hr).
      * inversion Hstep; subst; clear Hstep.
        apply (reads_wf_ext s); [reflexivity| |assumption].
        unfold live_reads. simpl. rewrite !fmap_take.
        by rewrite Update_restart_stages.
    + inversion Hstep; subst; clear Hstep. by apply reads_wf_empty.
  - inversion Hstep; subst; clear Hstep.
    apply (reads_wf_ext s); [reflexivity| |assumption].
    unfold live_reads. simpl. rewrite !fmap_take.
    by rewrite ApplyExecutionBarrier_loop_stages.
  - inversion Hstep; subst; clear Hstep. unfold ApplyMemoryBarrier.
    destruct (negb _); [|assumption].
    by apply (reads_wf_ext s).
Qed.

(** Every state reached from one without read records is well formed, as
    long as read usages carry a single-bit pipeline stage. *)
Lemma reads_wf_reachable (s0 s : ResourceAccessState) :
  (∀ u, IsRead_index u = true → is_single_bit (PipelineStageBit u) = true) →
  last_read_count s0 = 0%nat → last_read_stages s0 = 0 →
  reachable s0 s → reads_wf s.
Proof.
  intros Hbit Hc Hm Hreach. induction Hreach as [|s s' op _ IH Hstep].
  - by apply reads_wf_empty.
  - apply (reads_wf_step s s' op); [|assumption..].
    intros u t _ Hread. by apply Hbit.
Qed.

(** On a well-formed state whose mask holds the stage, the restart search
    finds the one live record of that stage. *)
Lemma Update_restart_wf (s : ResourceAccessState) (S : Z) (t : ResourceUsageTag) :
  reads_wf s → is_single_bit S = true →
  Z.land S (last_read_stages s) ≠ 0 →
  ∃ k r, live_reads s !! k = Some r ∧ stage r = S
         ∧ (∀ j r', live_reads s !! j = Some r' → stage r' = S → j = k)
         ∧ Update_restart (last_reads s) S t 0 (last_read_count s)
           = <[k := {| stage := S; barriers := 0; tag := t |}]> (last_reads s).
Proof.
  intros (Hinv & Hbits & Hnodup) HS Hmeet. rewrite Hinv in Hmeet.
  destruct (land_stages_union_hit _ _ Hmeet) as (r0 & Hr0 & Hhit).
  assert (stage r0 = S) as Hst0.
  { symmetry. apply single_bits_meet; [assumption| |assumption].
    by apply (proj1 (Forall_forall _ _) Hbits). }
  apply elem_of_take in Hr0 as (k0 & Hk0 & Hlt0).
  destruct (Update_restart_spec (last_reads s) S t (last_read_count s) 0)
    as [[Hnone _]|(k & Hk & Hhitk & _ & Hres)].
  { exfalso. apply (Hnone k0); [lia|].
    by rewrite (list_lookup_total_correct _ _ _ Hk0). }
  assert (k < length (last_reads s))%nat as Hklen.
  { destruct (decide (k < length (last_reads s))%nat) as [|Hge]; [assumption|].
    exfalso. rewrite list_lookup_total_alt in Hhitk.
    rewrite (lookup_ge_None_2 (last_reads s) k) in Hhitk by lia.
    simpl in Hhitk. apply (is_single_bit_nonzero _ HS). by symmetry. }
  destruct (lookup_lt_is_Some_2 _ _ Hklen) as [r Hr].
  rewrite (list_lookup_total_correct _ _ _ Hr) in Hhitk.
  assert (live_reads s !! k = Some r) as Hlive.
  { unfold live_reads. rewrite lookup_take_lt by lia. assumption. }
  exists k, r. split; [assumption|]. split; [assumption|]. split; [|assumption].
  intros j r' Hj Hst'. apply (NoDup_lookup _ _ _ S Hnodup).
  - by rewrite list_lookup_fmap, Hj; simpl; rewrite Hst'.
  - by rewrite list_lookup_fmap, Hlive; simpl; rewrite Hhitk.
Qed.

(** C7: on a state with one record per single-bit stage and a consistent
    stage mask (every state the recording operations produce), two read-class
    usages of the same single-bit pipeline stage recorded one after the other
    leave exactly one live read record of that stage, at one index [i]: the
    first [Update] leaves it with the first tag and an empty granted scope,
    the second overwrites the tag with the later one and leaves the scope
    empty; the second [Update] changes no other slot, nor the record count,
    the stage mask or the write side. *)
Theorem Update_same_stage_collapses (s s1 : ResourceAccessState)
    (usage1 usage2 : SyncStageAccessIndex) (tag1 tag2 : ResourceUsageTag) :
  reads_wf s →
  IsRead_index usage1 = true → IsRead_index usage2 = true →
  PipelineStageBit usage2 = PipelineStageBit usage1 →
  is_single_bit (PipelineStageBit usage1) = true →
  Update s usage1 tag1 = Some s1 →
  ∃ s2 i,
    Update s1 usage2 tag2 = Some s2
    ∧ live_reads s1 !! i
      = Some {| stage := PipelineStageBit usage1; barriers := 0; tag := tag1 |}
    ∧ live_reads s2 !! i
      = Some {| stage := PipelineStageBit usage1; barriers := 0; tag := tag2 |}
    ∧ (∀ j r, live_reads s2 !! j = Some r →
              stage r = PipelineStageBit usage1 → j = i)
    ∧ (∀ j, j ≠ i → last_reads s2 !! j = last_reads s1 !! j)
    ∧ last_read_count s2 = last_read_count s1
    ∧ last_read_stages s2 = last_read_stages s1
    ∧ write_barriers s2 = write_barriers s1
    ∧ write_tag s2 = write_tag s1
    ∧ last_write s2 = last_write s1.
Proof.
  intros Hwf Hr1 Hr2 Hsame Hbit Hup1.
  set (S := PipelineStageBit usage1) in *.
  assert (reads_wf s1) as Hwf1.
  { apply (reads_wf_step s s1 (OpUpdate usage1 tag1)); [|assumption..].
    intros u t [= -> ->] _. assumption. }
  (* the first Update leaves a record of the stage, with the first tag *)
  assert (Z.land S (last_read_stages s1) ≠ 0
          ∧ ∃ i, live_reads s1 !! i
                 = Some {| stage := S; barriers := 0; tag := tag1 |})
    as [Hmask1 [i Hi]].
  { unfold Update in Hup1. rewrite Hr1 in Hup1. fold S in Hup1.
    destruct (Z.eqb_spec (Z.land S (last_read_stages s)) 0) as [Hz|Hnz];
      simpl in Hup1.
    - destruct (Nat.ltb_spec (last_read_count s) (length (last_reads s)))
        as [Hlt|Hge]; [|discriminate].
      inversion Hup1; subst s1; clear Hup1. simpl. split.
      + rewrite Z.land_lor_distr_r, Z.land_diag. intros Hc.
        apply Z.lor_eq_0_iff in Hc as [_ Hc].
        by apply (is_single_bit_nonzero _ Hbit).
      + exists (last_read_count s). unfold live_reads. simpl.
        rewrite lookup_take_lt by lia.
        by apply list_lookup_insert_eq.
    - destruct (Update_restart_wf s S tag1 Hwf Hbit Hnz)
        as (k & r & Hk & Hst & _ & Hres).
      inversion Hup1; subst s1; clear Hup1. simpl. split; [assumption|].
      exists k. unfold live_reads in *. simpl. rewrite Hres.
      apply lookup_take_Some in Hk as [Hk Hlt].
      rewrite lookup_take_lt by assumption.
      apply list_lookup_insert_eq. by eapply lookup_lt_Some. }
  (* the second Update finds that record again *)
  destruct (Update_restart_wf s1 S tag2 Hwf1 Hbit Hmask1)
    as (k & r & Hk & Hst & Huniq & Hres).
  assert (i = k) as -> by (by apply (Huniq i _ Hi)).
  apply lookup_take_Some in Hk as [Hk Hlt].
  unfold Update. rewrite Hr2, Hsame. fold S.
  destruct (Z.eqb_spec (Z.land S (last_read_stages s1)) 0) as [|_]; [done|].
  simpl. eexists. exists k. split; [reflexivity|].
  split; [assumption|]. unfold live_reads at 1 2. simpl. rewrite Hres.
  split.
  { rewrite lookup_take_lt by assumption.
    apply list_lookup_insert_eq. by eapply lookup_lt_Some. }
  split.
  { intros j r' Hj Hst'. destruct (decide (j = k)) as [|Hne]; [assumption|].
    apply lookup_take_Some in Hj as [Hj Hjlt].
    rewrite list_lookup_insert_ne in Hj by done.
    apply (Huniq j r'); [|assumption].
    unfold live_reads. by rewrite lookup_take_lt. }
  split; [|done].
  intros j Hne. by rewrite list_lookup_insert_ne.
Qed.

End OneRecordPerStage.

(** ** The tracker: barrier passes and hazard queries *)

Section TrackerFacts.
Context `{!SyncStageAccessTables}.

Lemma write_scope_extended_refl (s : ResourceAccessState) :
  write_scope_extended s s.
Proof.
  repeat split. exists 0. by rewrite Z.lor_0_r.
Qed.

Lemma write_scope_extended_trans (s1 s2 s3 : ResourceAccessState) :
  write_scope_extended s1 s2 → write_scope_extended s2 s3 →
  write_scope_extended s1 s3.
Proof.
  intros (Ha & Hb & Hc & Hd & He & x & Hx) (Ha' & Hb' & Hc' & Hd' & He' & y & Hy).
  repeat split; try congruence.
  exists (Z.lor x y). by rewrite Hy, Hx, Z.lor_assoc.
Qed.

Lemma ApplyMemoryBarrier_write_scope (s : ResourceAccessState)
    (src_scope dst_scope : Z) :
  write_scope_extended s (ApplyMemoryBarrier s src_scope dst_scope).
Proof.
  unfold ApplyMemoryBarrier. destruct (negb _).
  - repeat split. by exists dst_scope.
  - apply write_scope_extended_refl.
Qed.

Lemma ApplyMemoryBarriers_write_scope (barrier_scope : list (Z * Z))
    (s : ResourceAccessState) :
  write_scope_extended s (ApplyMemoryBarriers s barrier_scope).
Proof.
  revert s. induction barrier_scope as [|scope rest IH]; intros s; simpl.
  - apply write_scope_extended_refl.
  - eapply write_scope_extended_trans; [|apply IH].
    apply ApplyMemoryBarrier_write_scope.
Qed.

Lemma ApplyBufferBarriers_lookup (src_stage_scope dst_stage_scope : Z)
    (barriers_ : list VkBufferMemoryBarrier) (tracker : ResourceAccessTracker)
    (b : VkBuffer) :
  match tracker !! b with
  | None =>
      ApplyBufferBarriers tracker src_stage_scope dst_stage_scope barriers_ !! b
      = None
  | Some s =>
      ∃ s',
        ApplyBufferBarriers tracker src_stage_scope dst_stage_scope barriers_ !! b
        = Some s'
        ∧ write_scope_extended s s'
        ∧ ((∀ barrier, barrier ∈ barriers_ → buffer barrier ≠ b) → s' = s)
  end.
Proof.
  revert tracker. induction barriers_ as [|barrier rest IH]; intros tracker.
  - simpl. destruct (tracker !! b) as [s|] eqn:Hb; [|reflexivity].
    exists s. split; [reflexivity|].
    split; [apply write_scope_extended_refl|done].
  - simpl. unfold Tracker_GetNoInsert.
    destruct (tracker !! buffer barrier) as [access_state|] eqn:Hnamed.
    + set (tracker1 := <[buffer barrier := _]> tracker).
      specialize (IH tracker1).
      destruct (decide (buffer barrier = b)) as [Heq|Hne].
      * subst b. rewrite Hnamed. unfold tracker1 in IH at 1.
        rewrite lookup_insert_eq in IH.
        destruct IH as (s' & Hs' & Hext & _). exists s'.
        split; [assumption|]. split.
        -- eapply write_scope_extended_trans; [|exact Hext].
           apply ApplyMemoryBarrier_write_scope.
        -- intros Hfree. exfalso. apply (Hfree barrier); [|reflexivity].
           by apply elem_of_cons; left.
      * unfold tracker1 in IH at 1. rewrite lookup_insert_ne in IH by done.
        destruct (tracker !! b) as [s|] eqn:Hb; [|assumption].
        destruct IH as (s' & Hs' & Hext & Hsame). exists s'.
        split; [assumption|]. split; [assumption|].
        intros Hfree. apply Hsame. intros x Hx. apply Hfree.
        by apply elem_of_cons; right.
    + specialize (IH tracker).
      destruct (tracker !! b) as [s|] eqn:Hb; [|assumption].
      destruct IH as (s' & Hs' & Hext & Hsame). exists s'.
      split; [assumption|]. split; [assumption|].
      intros Hfree. apply Hsame. intros x Hx. apply Hfree.
      by apply elem_of_cons; right.
Qed.

(** The whole record phase of a pipeline barrier: the read records of every
    tracked state end up as the execution barrier alone leaves them. *)
Lemma PreCallRecordCmdPipelineBarrier_reads (tracker : ResourceAccessTracker)
    (srcStageMask dstStageMask : Z) (pMemoryBarriers : list VkMemoryBarrier)
    (pBufferMemoryBarriers : list VkBufferMemoryBarrier) :
  ∃ tracker',
    PreCallRecordCmdPipelineBarrier (Some tracker) srcStageMask dstStageMask
      pMemoryBarriers pBufferMemoryBarriers = Some tracker'
    ∧ ∀ b s, tracker !! b = Some s →
        ∃ s', tracker' !! b = Some s'
              ∧ last_reads s'
                = last_reads (ApplyExecutionBarrier s srcStageMask dstStageMask)
              ∧ last_read_count s' = last_read_count s
              ∧ last_read_stages s' = last_read_stages s.
Proof.
  eexists. split; [reflexivity|]. intros b s Hb.
  unfold ApplyGlobalBarriers, ApplyImageBarriers. rewrite lookup_fmap.
  pose proof (ApplyBufferBarriers_lookup (AccessScopeByStage srcStageMask)
                (AccessScopeByStage dstStageMask) pBufferMemoryBarriers
                tracker b) as Hl.
  rewrite Hb in Hl. destruct Hl as (s1 & Hs1 & (Hr & Hc & Hm & _) & _).
  rewrite Hs1. simpl. eexists. split; [reflexivity|].
  destruct (ApplyMemoryBarriers_write_scope
              (barrier_scopes (AccessScopeByStage srcStageMask)
                 (AccessScopeByStage dstStageMask) pMemoryBarriers)
              (ApplyExecutionBarrier s1 srcStageMask dstStageMask))
    as (Hr' & Hc' & Hm' & _).
  rewrite Hr', Hc', Hm'. simpl. by rewrite Hr, Hc, Hm.
Qed.

(** C10: [ApplyBufferBarriers] creates no entry, and in every tracked state
    it leaves the read records (stage, tag and granted scope of each), the
    read count, the stage mask, the last write and the write tag as they
    were; [write_barriers] can only gain bits; the state of a buffer that no
    barrier names is unchanged altogether.  The granted scopes of read
    records are extended by [ApplyGlobalBarriers], which applies the
    execution barrier to every tracked state: with no memory barrier that is
    all it does, and with memory barriers the read side of every state is
    still that of the execution barrier alone. *)
Theorem ApplyBufferBarriers_write_side_only (tracker : ResourceAccessTracker)
    (src_stage_scope dst_stage_scope : Z)
    (barriers_ : list VkBufferMemoryBarrier) :
  let tracker' :=
    ApplyBufferBarriers tracker src_stage_scope dst_stage_scope barriers_ in
  (∀ b, tracker !! b = None → tracker' !! b = None)
  ∧ (∀ b s, tracker !! b = Some s →
       ∃ s', tracker' !! b = Some s'
             ∧ write_scope_extended s s'
             ∧ ((∀ barrier, barrier ∈ barriers_ → buffer barrier ≠ b) → s' = s))
  ∧ (∀ srcStageMask dstStageMask,
       ApplyGlobalBarriers tracker srcStageMask dstStageMask
         src_stage_scope dst_stage_scope []
       = (λ s, ApplyExecutionBarrier s srcStageMask dstStageMask) <$> tracker)
  ∧ (∀ srcStageMask dstStageMask pMemoryBarriers b,
       ApplyGlobalBarriers tracker srcStageMask dstStageMask
         src_stage_scope dst_stage_scope pMemoryBarriers !! b
       = (λ s,
            ApplyMemoryBarriers
              (ApplyExecutionBarrier s srcStageMask dstStageMask)
              (barrier_scopes src_stage_scope dst_stage_scope pMemoryBarriers))
         <$> tracker !! b
       ∧ ∀ s, tracker !! b = Some s →
           write_scope_extended
             (ApplyExecutionBarrier s srcStageMask dstStageMask)
             (ApplyMemoryBarriers
                (ApplyExecutionBarrier s srcStageMask dstStageMask)
                (barrier_scopes src_stage_scope dst_stage_scope pMemoryBarriers))).
Proof.
  simpl. split; [|split; [|split]].
  - intros b Hb.
    pose proof (ApplyBufferBarriers_lookup src_stage_scope dst_stage_scope
                  barriers_ tracker b) as Hl.
    by rewrite Hb in Hl.
  - intros b s Hb.
    pose proof (ApplyBufferBarriers_lookup src_stage_scope dst_stage_scope
                  barriers_ tracker b) as Hl.
    by rewrite Hb in Hl.
  - reflexivity.
  - intros srcStageMask dstStageMask pMemoryBarriers b. split.
    + unfold ApplyGlobalBarriers. by rewrite lookup_fmap.
    + intros s _. apply ApplyMemoryBarriers_write_scope.
Qed.

(** C9: a hazard query on a buffer the tracker has no entry for answers no
    hazard, and leaves the tracker as it was: no entry appears for the
    buffer. *)
Theorem SyncValidator_DetectHazard_untracked (tracker : ResourceAccessTracker)
    (current_usage : SyncStageAccessIndex) (buffer_ : VkBuffer)
    (region : VkBufferCopy) :
  tracker !! buffer_ = None →
  SyncValidator_DetectHazard tracker current_usage buffer_ region
  = (HazardResult_default, tracker)
  ∧ hazard (SyncValidator_DetectHazard tracker current_usage buffer_ region).1
    = NONE
  ∧ (SyncValidator_DetectHazard tracker current_usage buffer_ region).2 !! buffer_
    = None.
Proof.
  intros Habsent. unfold SyncValidator_DetectHazard, Tracker_Get_const.
  rewrite Habsent. simpl. done.
Qed.

End TrackerFacts.

(** ** Copy validation *)

Section CopyFacts.
Context `{!SyncStageAccessTables}.
Variable log_msg : LogMsg → bool.
Variable tracker : ResourceAccessTracker.
Variables srcBuffer dstBuffer : VkBuffer.

Lemma SyncValidator_DetectHazard_result (current_usage : SyncStageAccessIndex)
    (buffer_ : VkBuffer) (r : VkBufferCopy) :
  SyncValidator_DetectHazard tracker current_usage buffer_ r
  = (buffer_hazard tracker current_usage buffer_, tracker).
Proof.
  unfold SyncValidator_DetectHazard, Tracker_Get_const, buffer_hazard.
  by destruct (tracker !! buffer_).
Qed.

Lemma validate_region_spec (region : nat) (r : VkBufferCopy) :
  validate_region log_msg tracker srcBuffer dstBuffer region r false
  = (copy_region_skip log_msg tracker srcBuffer dstBuffer region,
     copy_region_events tracker srcBuffer dstBuffer region).
Proof.
  unfold validate_region, copy_region_skip, copy_region_events.
  rewrite !SyncValidator_DetectHazard_result. simpl.
  destruct (is_hazard (buffer_hazard tracker SYNC_TRANSFER_TRANSFER_READ _));
    [reflexivity|].
  by destruct (is_hazard (buffer_hazard tracker SYNC_TRANSFER_TRANSFER_WRITE _)).
Qed.

Lemma validate_regions_spec (pRegions : list VkBufferCopy) (region : nat) :
  let res :=
    validate_regions log_msg tracker srcBuffer dstBuffer pRegions region false in
  ∃ k, (k ≤ length pRegions)%nat
       ∧ res.2
         = concat (copy_region_events tracker srcBuffer dstBuffer
                   <$> seq region k)
       ∧ (∀ i, (region ≤ i)%nat → (S i < region + k)%nat →
               copy_region_skip log_msg tracker srcBuffer dstBuffer i = false)
       ∧ (res.1 = false →
          k = length pRegions
          ∧ ∀ i, (region ≤ i < region + k)%nat →
                 copy_region_skip log_msg tracker srcBuffer dstBuffer i = false)
       ∧ (res.1 = true →
          ∃ i, (region ≤ i < region + k)%nat
               ∧ copy_region_skip log_msg tracker srcBuffer dstBuffer i = true).
Proof.
  revert region. induction pRegions as [|r rest IH]; intros region; simpl.
  - exists 0%nat. simpl. split; [lia|]. split; [reflexivity|].
    split; [intros; lia|]. split; [|discriminate].
    intros _. split; [reflexivity|intros; lia].
  - rewrite validate_region_spec.
    destruct (copy_region_skip log_msg tracker srcBuffer dstBuffer region)
      eqn:Hskip.
    + exists 1%nat. simpl. split; [lia|]. split; [by rewrite app_nil_r|].
      split; [intros; lia|]. split; [discriminate|].
      intros _. exists region. split; [lia|assumption].
    + destruct (IH (S region)) as (k & Hk & Htrace & Hquiet & Hfalse & Htrue).
      destruct (validate_regions _ _ _ _ rest (S region) false)
        as [skip events] eqn:Hrest.
      simpl in *. exists (S k). split; [lia|]. split; [by rewrite Htrace|].
      split.
      { intros i Hlo Hhi. destruct (decide (i = region)) as [->|];
          [assumption|]. apply Hquiet; lia. }
      split.
      { intros Hres. destruct (Hfalse Hres) as [-> Hall]. split; [reflexivity|].
        intros i Hi. destruct (decide (i = region)) as [->|];
          [assumption|]. apply Hall; lia. }
      intros Hres. destruct (Htrue Hres) as (i & Hi & Hhit).
      exists i. split; [lia|assumption].
Qed.

End CopyFacts.

Section CopyTheorems.
Context `{!SyncStageAccessTables}.

(** C5, as the code has it: without a tracker nothing is queried and the
    answer is false.  With one, the regions [0 .. k-1] are checked in order,
    each by [copy_region_events] (source first for the read usage, the
    destination for the write usage only when the source has no hazard, every
    hazard found reported through [log_msg]); checking stops after the first
    region whose report [log_msg] answered true, and the call returns true
    exactly when [log_msg] answered true to some report.  Where [log_msg]
    answers true to every report, the call returns true exactly when some
    region has a hazard, and checks no region after the first. *)
Theorem PreCallValidateCmdCopyBuffer_skip (log_msg : LogMsg → bool)
    (tracker : ResourceAccessTracker) (srcBuffer dstBuffer : VkBuffer)
    (pRegions : list VkBufferCopy) :
  let res :=
    PreCallValidateCmdCopyBuffer log_msg (Some tracker) srcBuffer dstBuffer
      pRegions in
  PreCallValidateCmdCopyBuffer log_msg None srcBuffer dstBuffer pRegions
  = (false, [])
  ∧ ∃ k, (k ≤ length pRegions)%nat
      ∧ res.2
        = concat (copy_region_events tracker srcBuffer dstBuffer <$> seq 0 k)
      ∧ (∀ i, (S i < k)%nat →
              copy_region_skip log_msg tracker srcBuffer dstBuffer i = false)
      ∧ (res.1 = false → k = length pRegions)
      ∧ (res.1 = true ↔
         ∃ i, (i < k)%nat
              ∧ copy_region_skip log_msg tracker srcBuffer dstBuffer i = true)
      ∧ (res.1 = true ↔
         ∃ i, (i < length pRegions)%nat
              ∧ copy_region_skip log_msg tracker srcBuffer dstBuffer i = true)
      ∧ ((∀ m, log_msg m = true) →
         (res.1 = true ↔
          pRegions ≠ [] ∧ copy_has_hazard tracker srcBuffer dstBuffer = true)
         ∧ (copy_has_hazard tracker srcBuffer dstBuffer = true → (k ≤ 1)%nat)).
Proof.
  simpl. split; [reflexivity|].
  destruct (validate_regions_spec log_msg tracker srcBuffer dstBuffer pRegions 0)
    as (k & Hk & Htrace & Hquiet & Hfalse & Htrue).
  set (res := validate_regions log_msg tracker srcBuffer dstBuffer pRegions 0
                false) in *.
  simpl in *.
  assert (res.1 = true ↔
          ∃ i, (i < k)%nat
               ∧ copy_region_skip log_msg tracker srcBuffer dstBuffer i = true)
    as Hiff_k.
  { split.
    - intros Hres. destruct (Htrue Hres) as (i & Hi & Hhit). exists i.
      split; [lia|assumption].
    - intros (i & Hi & Hhit). destruct (res.1) eqn:Hres; [reflexivity|].
      destruct (Hfalse eq_refl) as [_ Hall]. rewrite Hall in Hhit by lia.
      discriminate. }
  assert (res.1 = true ↔
          ∃ i, (i < length pRegions)%nat
               ∧ copy_region_skip log_msg tracker srcBuffer dstBuffer i = true)
    as Hiff_n.
  { split.
    - intros Hres. apply Hiff_k in Hres as (i & Hi & Hhit). exists i.
      split; [lia|assumption].
    - intros (i & Hi & Hhit). destruct (res.1) eqn:Hres; [reflexivity|].
      destruct (Hfalse eq_refl) as [-> Hall]. rewrite Hall in Hhit by lia.
      discriminate. }
  exists k. split; [assumption|]. split; [assumption|].
  split; [intros i Hi; apply Hquiet; lia|].
  split; [intros Hres; by destruct (Hfalse Hres)|].
  split; [assumption|]. split; [assumption|].
  intros Hlog.
  assert (∀ i, copy_region_skip log_msg tracker srcBuffer dstBuffer i
               = copy_has_hazard tracker srcBuffer dstBuffer) as Hskip.
  { intros i. unfold copy_region_skip, copy_has_hazard.
    destruct (is_hazard (buffer_hazard tracker SYNC_TRANSFER_TRANSFER_READ _));
      [apply Hlog|].
    destruct (is_hazard (buffer_hazard tracker SYNC_TRANSFER_TRANSFER_WRITE _));
      [apply Hlog|reflexivity]. }
  split.
  - rewrite Hiff_n. split.
    + intros (i & Hi & Hhit). rewrite Hskip in Hhit. split; [|assumption].
      intros ->. simpl in Hi. lia.
    + intros [Hne Hhaz]. exists 0%nat. rewrite Hskip. split; [|assumption].
      destruct pRegions; [done|simpl; lia].
  - intros Hhaz. destruct (decide (k ≤ 1)%nat) as [|Hbig]; [assumption|].
    exfalso. specialize (Hquiet 0%nat). rewrite Hskip, Hhaz in Hquiet.
    assert (true = false) by (apply Hquiet; lia). discriminate.
Qed.

End CopyTheorems.

(** ** The worked instance: examples and instances of the theorems *)

Section Examples.
#[local] Existing Instance transfer_tables.

Example ApplyMemoryBarrier_written :
  ApplyMemoryBarrier written_state 2 3 = synced_state.
Proof. reflexivity. Qed.

Example Update_read_synced :
  Update synced_state SYNC_TRANSFER_TRANSFER_READ 2%N = Some read_state.
Proof. reflexivity. Qed.

Example Update_read_again :
  Update read_state SYNC_TRANSFER_TRANSFER_READ 3%N = Some reread_state.
Proof. reflexivity. Qed.

(** The sequences of the specification's testable properties. *)
Example write_then_write :
  DetectHazard written_state SYNC_TRANSFER_TRANSFER_WRITE
  = {| hazard := WRITE_AFTER_WRITE; hazard_tag := 1%N |}.
Proof. reflexivity. Qed.

Example write_then_read :
  DetectHazard written_state SYNC_TRANSFER_TRANSFER_READ
  = {| hazard := READ_AFTER_WRITE; hazard_tag := 1%N |}.
Proof. reflexivity. Qed.

Example read_then_write :
  DetectHazard read_state SYNC_TRANSFER_TRANSFER_WRITE
  = {| hazard := WRITE_AFTER_READ; hazard_tag := 2%N |}.
Proof. reflexivity. Qed.

Example write_barrier_read :
  DetectHazard synced_state SYNC_TRANSFER_TRANSFER_READ = HazardResult_default.
Proof. reflexivity. Qed.

(** An execution barrier out of the transfer stage grants its destination to
    the read; a second barrier out of what was granted chains on; a barrier
    out of an unrelated stage changes nothing. *)
Example ApplyExecutionBarrier_grants :
  live_reads (ApplyExecutionBarrier read_state 4096 1)
  = [{| stage := 4096; barriers := 1; tag := 2%N |}].
Proof. reflexivity. Qed.

Example ApplyExecutionBarrier_chained :
  live_reads
    (ApplyExecutionBarrier (ApplyExecutionBarrier read_state 4096 1) 1 2)
  = [{| stage := 4096; barriers := 3; tag := 2%N |}].
Proof. reflexivity. Qed.

Example ApplyExecutionBarrier_disjoint :
  ApplyExecutionBarrier read_state 8 2 = read_state.
Proof. reflexivity. Qed.

(** A buffer barrier from the transfer write to the transfer read on buffer
    7, and the copy out of buffer 7 validated before and after it, with a
    logging layer that asks to skip: before, the first region is reported
    and ends the call; after, both regions are checked and found clean. *)
Example pipeline_barrier_on_buffer :
  PreCallRecordCmdPipelineBarrier (Some one_buffer_tracker) 4096 4096 []
    [{| buffer_srcAccessMask := 4096; buffer_dstAccessMask := 2048;
        buffer := 7%N |}]
  = Some {[ 7%N := {| write_barriers := 1;
                      write_tag := 1%N;
                      last_write := 2;
                      last_reads := replicate 32 inhabitant;
                      last_read_count := 0;
                      last_read_stages := 0 |} ]}.
Proof. reflexivity. Qed.

Example copy_before_barrier :
  PreCallValidateCmdCopyBuffer (λ _, true) (Some one_buffer_tracker)
    7%N 8%N two_regions
  = (true,
     [EvDetectHazard SYNC_TRANSFER_TRANSFER_READ 7%N 0;
      EvLogMsg {| msg_object := 7%N;
                  msg_vuid := "SYNC-HAZARD-READ_AFTER_WRITE";
                  msg_hazard := "READ_AFTER_WRITE";
                  msg_buffer := "srcBuffer";
                  msg_region := 0 |}]).
Proof. reflexivity. Qed.

Example copy_after_barrier :
  PreCallValidateCmdCopyBuffer (λ _, true)
    (PreCallRecordCmdPipelineBarrier (Some one_buffer_tracker) 4096 4096 []
       [{| buffer_srcAccessMask := 4096; buffer_dstAccessMask := 2048;
           buffer := 7%N |}])
    7%N 8%N two_regions
  = (false,
     [EvDetectHazard SYNC_TRANSFER_TRANSFER_READ 7%N 0;
      EvDetectHazard SYNC_TRANSFER_TRANSFER_WRITE 8%N 0;
      EvDetectHazard SYNC_TRANSFER_TRANSFER_READ 7%N 1;
      EvDetectHazard SYNC_TRANSFER_TRANSFER_WRITE 8%N 1]).
Proof. reflexivity. Qed.

(** C1, at the written state: the write usage meets the unsynchronized
    write. *)
Lemma DetectHazard_write_usage_order_witness :
  IsRead (FlagBit SYNC_TRANSFER_TRANSFER_WRITE) = false
  ∧ DetectHazard written_state SYNC_TRANSFER_TRANSFER_WRITE
    = {| hazard := WRITE_AFTER_WRITE; hazard_tag := write_tag written_state |}.
Proof.
  assert (IsRead (FlagBit SYNC_TRANSFER_TRANSFER_WRITE) = false) as Hwrite
    by reflexivity.
  split; [exact Hwrite|].
  apply (proj1 (DetectHazard_write_usage_order written_state
                  SYNC_TRANSFER_TRANSFER_WRITE Hwrite));
    [discriminate|reflexivity].
Defined.

(** C2, at the read state: a write resets the read records. *)
Lemma read_stages_inv_step_witness :
  read_stages_inv read_state
  ∧ ∃ s', step read_state (OpUpdate SYNC_TRANSFER_TRANSFER_WRITE 4%N) = Some s'
          ∧ live_reads s' = [] ∧ last_read_count s' = 0%nat
          ∧ last_read_stages s' = 0
          ∧ last_write s' = FlagBit SYNC_TRANSFER_TRANSFER_WRITE
          ∧ write_tag s' = 4%N
          ∧ write_barriers s' = 0.
Proof.
  assert (read_stages_inv read_state) as Hinv by reflexivity.
  split; [exact Hinv|].
  apply (proj2 (proj2 (read_stages_inv_step read_state
                         (OpUpdate SYNC_TRANSFER_TRANSFER_WRITE 4%N) Hinv))
           SYNC_TRANSFER_TRANSFER_WRITE 4%N); reflexivity.
Defined.

(** C3, with A the transfer write bit and B the transfer read bit. *)
Lemma covering_barrier_suppresses_read_after_write_witness :
  IsRead_index SYNC_TRANSFER_TRANSFER_WRITE = false
  ∧ FlagBit SYNC_TRANSFER_TRANSFER_WRITE ≠ 0
  ∧ Z.land 2 (FlagBit SYNC_TRANSFER_TRANSFER_WRITE)
    = FlagBit SYNC_TRANSFER_TRANSFER_WRITE
  ∧ Z.land 3 1 = 1
  ∧ Z.land 1 (FlagBit SYNC_TRANSFER_TRANSFER_READ)
    = FlagBit SYNC_TRANSFER_TRANSFER_READ
  ∧ IsRead (FlagBit SYNC_TRANSFER_TRANSFER_READ) = true
  ∧ ∃ s1, Update read_state SYNC_TRANSFER_TRANSFER_WRITE 1%N = Some s1
          ∧ write_barriers (ApplyMemoryBarrier s1 2 3) = 3
          ∧ DetectHazard (ApplyMemoryBarrier s1 2 3) SYNC_TRANSFER_TRANSFER_READ
            = HazardResult_default.
Proof.
  repeat (split; [first [reflexivity | discriminate]|]).
  apply (covering_barrier_suppresses_read_after_write read_state
           SYNC_TRANSFER_TRANSFER_WRITE SYNC_TRANSFER_TRANSFER_READ 1%N 2 3 1);
    first [reflexivity | discriminate].
Defined.

(** C7, at the synchronized state. *)
Lemma Update_same_stage_collapses_witness :
  reads_wf synced_state
  ∧ IsRead_index SYNC_TRANSFER_TRANSFER_READ = true
  ∧ is_single_bit (PipelineStageBit SYNC_TRANSFER_TRANSFER_READ) = true
  ∧ Update synced_state SYNC_TRANSFER_TRANSFER_READ 2%N = Some read_state
  ∧ ∃ s2 i,
      Update read_state SYNC_TRANSFER_TRANSFER_READ 3%N = Some s2
      ∧ live_reads read_state !! i
        = Some {| stage := PipelineStageBit SYNC_TRANSFER_TRANSFER_READ;
                  barriers := 0; tag := 2%N |}
      ∧ live_reads s2 !! i
        = Some {| stage := PipelineStageBit SYNC_TRANSFER_TRANSFER_READ;
                  barriers := 0; tag := 3%N |}
      ∧ (∀ j r, live_reads s2 !! j = Some r →
                stage r = PipelineStageBit SYNC_TRANSFER_TRANSFER_READ → j = i)
      ∧ (∀ j, j ≠ i → last_reads s2 !! j = last_reads read_state !! j)
      ∧ last_read_count s2 = last_read_count read_state
      ∧ last_read_stages s2 = last_read_stages read_state
      ∧ write_barriers s2 = write_barriers read_state
      ∧ write_tag s2 = write_tag read_state
      ∧ last_write s2 = last_write read_state.
Proof.
  assert (reads_wf synced_state) as Hwf by (by apply reads_wf_empty).
  split; [exact Hwf|]. repeat (split; [reflexivity|]).
  apply (Update_same_stage_collapses synced_state read_state
           SYNC_TRANSFER_TRANSFER_READ SYNC_TRANSFER_TRANSFER_READ 2%N 3%N Hwf);
    reflexivity.
Defined.

(** C8, on a mask that makes the scan stop before the second key. *)
Lemma AccessScopeImpl_refines_naive_witness :
  0 ≤ 2048
  ∧ ascending_single_bit_keys syncStageAccessMaskByAccessBit = true
  ∧ AccessScopeImpl 2048 syncStageAccessMaskByAccessBit
    = AccessScopeNaive 2048 syncStageAccessMaskByAccessBit.
Proof.
  assert (0 ≤ 2048) as Hmask by lia.
  split; [exact Hmask|]. split; [reflexivity|].
  apply (AccessScopeImpl_refines_naive 2048 syncStageAccessMaskByAccessBit Hmask).
  reflexivity.
Defined.

(** C9, for buffer 8, which the tracker does not know. *)
Lemma SyncValidator_DetectHazard_untracked_witness :
  one_buffer_tracker !! 8%N = None
  ∧ SyncValidator_DetectHazard one_buffer_tracker SYNC_TRANSFER_TRANSFER_WRITE
      8%N {| srcOffset := 0; dstOffset := 0; size_ := 16 |}
    = (HazardResult_default, one_buffer_tracker).
Proof.
  assert (one_buffer_tracker !! 8%N = None) as Habsent by reflexivity.
  split; [exact Habsent|].
  apply (SyncValidator_DetectHazard_untracked one_buffer_tracker
           SYNC_TRANSFER_TRANSFER_WRITE 8%N _ Habsent).
Defined.

(** C5 as stated fails where the logging layer answers false: copying from
    the written buffer 7, region 0 has a read-after-write hazard and reports
    it, yet region 1 is checked and reported as well, and the call returns
    false. *)
Lemma PreCallValidateCmdCopyBuffer_continues_past_hazard :
  is_hazard
    (buffer_hazard one_buffer_tracker SYNC_TRANSFER_TRANSFER_READ 7%N) = true
  ∧ PreCallValidateCmdCopyBuffer log_msg_quiet (Some one_buffer_tracker)
      7%N 8%N two_regions
    = (false,
       [EvDetectHazard SYNC_TRANSFER_TRANSFER_READ 7%N 0;
        EvLogMsg {| msg_object := 7%N;
                    msg_vuid := "SYNC-HAZARD-READ_AFTER_WRITE";
                    msg_hazard := "READ_AFTER_WRITE";
                    msg_buffer := "srcBuffer";
                    msg_region := 0 |};
        EvDetectHazard SYNC_TRANSFER_TRANSFER_READ 7%N 1;
        EvLogMsg {| msg_object := 7%N;
                    msg_vuid := "SYNC-HAZARD-READ_AFTER_WRITE";
                    msg_hazard := "READ_AFTER_WRITE";
                    msg_buffer := "srcBuffer";
                    msg_region := 1 |}])
  ∧ ¬ ((PreCallValidateCmdCopyBuffer log_msg_quiet (Some one_buffer_tracker)
          7%N 8%N two_regions).1 = true
       ↔ two_regions ≠ []
         ∧ copy_has_hazard one_buffer_tracker 7%N 8%N = true).
Proof.
  split; [reflexivity|]. split; [reflexivity|].
  intros [_ Hback].
  assert ((PreCallValidateCmdCopyBuffer log_msg_quiet (Some one_buffer_tracker)
             7%N 8%N two_regions).1 = true) as Hskip.
  { apply Hback. split; [discriminate|reflexivity]. }
  discriminate Hskip.
Qed.

End Examples.

(** * Further properties of the code *)

(** ** Scope calculator *)

Section ScopeCalculatorFacts.
Context `{!SyncStageAccessTables}.

Lemma AccessScopeImpl_loop_empty_mask (map : ScopeMap) (scope : Z) :
  AccessScopeImpl_loop 0 map scope = scope.
Proof.
  revert scope. induction map as [|e rest IH]; intros scope; simpl;
    [reflexivity|].
  destruct (0 <? e.1); [reflexivity|]. apply IH.
Qed.

(** X1: an empty stage mask or an empty access mask has the empty scope,
    whatever the tables hold, and so has every pair of masks one of which is
    empty. *)
Theorem AccessScope_empty_mask (stages accesses : Z) :
  AccessScopeByStage 0 = 0
  ∧ AccessScopeByAccess 0 = 0
  ∧ AccessScope 0 accesses = 0
  ∧ AccessScope stages 0 = 0.
Proof.
  unfold AccessScope, AccessScopeByStage, AccessScopeByAccess, AccessScopeImpl.
  rewrite !AccessScopeImpl_loop_empty_mask.
  by rewrite Z.land_0_l, Z.land_0_r.
Qed.

Lemma AccessScopeNaive_loop_acc (flag_mask : Z) (map : ScopeMap) (scope : Z) :
  AccessScopeNaive_loop flag_mask map scope
  = Z.lor scope (AccessScopeNaive_loop flag_mask map 0).
Proof.
  revert scope. induction map as [|e rest IH]; intros scope; simpl.
  - by rewrite Z.lor_0_r.
  - destruct (Z.land flag_mask e.1 =? 0); [apply IH|].
    rewrite IH, (IH (Z.lor 0 e.2)). by rewrite Z.lor_0_l, Z.lor_assoc.
Qed.

Lemma lor_interchange (x y z w : Z) :
  Z.lor (Z.lor x y) (Z.lor z w) = Z.lor (Z.lor x z) (Z.lor y w).
Proof.
  apply Z.bits_inj'. intros i _. rewrite !Z.lor_spec.
  destruct (Z.testbit x i), (Z.testbit y i), (Z.testbit z i); reflexivity.
Qed.

Lemma AccessScopeNaive_lor (a b : Z) (map : ScopeMap) :
  AccessScopeNaive (Z.lor a b) map
  = Z.lor (AccessScopeNaive a map) (AccessScopeNaive b map).
Proof.
  unfold AccessScopeNaive. induction map as [|e rest IH]; simpl;
    [reflexivity|].
  rewrite (AccessScopeNaive_loop_acc (Z.lor a b)),
    (AccessScopeNaive_loop_acc a), (AccessScopeNaive_loop_acc b), IH.
  rewrite lor_interchange. f_equal.
  rewrite Z.land_lor_distr_l.
  destruct (Z.eqb_spec (Z.land a e.1) 0) as [Ha|Ha],
           (Z.eqb_spec (Z.land b e.1) 0) as [Hb|Hb].
  - by rewrite Ha, Hb.
  - rewrite Ha, Z.lor_0_l. destruct (Z.eqb_spec (Z.land b e.1) 0); [done|].
    by rewrite !Z.lor_0_l.
  - rewrite Hb, Z.lor_0_r. destruct (Z.eqb_spec (Z.land a e.1) 0); [done|].
    by rewrite !Z.lor_0_l, Z.lor_0_r.
  - destruct (Z.eqb_spec (Z.lor (Z.land a e.1) (Z.land b e.1)) 0) as [Hz|_].
    + apply Z.lor_eq_0_iff in Hz as [Hz _]. done.
    + by rewrite !Z.lor_0_l, Z.lor_diag.
Qed.

(** X2: over a table whose keys are single bits in strictly ascending order,
    the scope of a union of two (unsigned) masks is the union of their
    scopes. *)
Theorem AccessScopeImpl_lor (a b : Z) (map : ScopeMap) :
  0 ≤ a → 0 ≤ b →
  ascending_single_bit_keys map = true →
  AccessScopeImpl (Z.lor a b) map
  = Z.lor (AccessScopeImpl a map) (AccessScopeImpl b map).
Proof.
  intros Ha Hb Hasc.
  assert (0 ≤ Z.lor a b) as Hab by (by apply Z.lor_nonneg).
  unfold AccessScopeImpl.
  rewrite (AccessScopeImpl_loop_naive _ map Hab 0 0 Hasc),
    (AccessScopeImpl_loop_naive _ map Ha 0 0 Hasc),
    (AccessScopeImpl_loop_naive _ map Hb 0 0 Hasc).
  apply AccessScopeNaive_lor.
Qed.

End ScopeCalculatorFacts.

(** ** Hazard detection against recorded accesses and barriers *)

Section DetectionFacts.
Context `{!SyncStageAccessTables}.

(** The scan reports nothing exactly when no live record is a hazard. *)
Lemma DetectHazard_reads_hazard (s : ResourceAccessState) (usage_stage : Z)
    (n : nat) :
  hazard (DetectHazard_reads s usage_stage 0 n HazardResult_default) = NONE
  ↔ ∀ j, (j < n)%nat → IsReadHazard usage_stage (last_reads s !!! j) = false.
Proof.
  destruct (first_index_dec
              (λ j, IsReadHazard usage_stage (last_reads s !!! j)) n 0)
    as [Hnone|(k & Hk & Hhit & Hbefore)].
  - rewrite DetectHazard_reads_clean by assumption.
    split; [|reflexivity]. intros _ j Hj. apply Hnone. lia.
  - rewrite (DetectHazard_reads_first s usage_stage n 0 k) by assumption.
    split; [discriminate|]. intros Hall. rewrite Hall in Hhit by lia.
    discriminate.
Qed.

Lemma DetectHazard_none_iff (s : ResourceAccessState)
    (usage_index : SyncStageAccessIndex) :
  hazard (DetectHazard s usage_index) = NONE
  ↔ IsRead (FlagBit usage_index) && IsWriteHazard s (FlagBit usage_index)
    = false
    ∧ negb (last_write s =? 0) && IsWriteHazard s (FlagBit usage_index) = false
    ∧ ∀ j, (j < last_read_count s)%nat →
           IsReadHazard (PipelineStageBit usage_index) (last_reads s !!! j)
           = false.
Proof.
  unfold DetectHazard.
  destruct (IsRead (FlagBit usage_index)
            && IsWriteHazard s (FlagBit usage_index)); simpl.
  { split; [discriminate|]. by intros [? _]. }
  destruct (negb (last_write s =? 0)
            && IsWriteHazard s (FlagBit usage_index)); simpl.
  { split; [discriminate|]. by intros (_ & ? & _). }
  rewrite DetectHazard_reads_hazard. split; [done|]. by intros (_ & _ & ?).
Qed.

(** X3: for a read-class usage, [DetectHazard] reports READ_AFTER_WRITE with
    the stored write tag exactly when the usage is a write hazard, whether or
    not a write was ever recorded.  Otherwise the usage falls through to the
    write path: it is never reported as WRITE_AFTER_WRITE, and it is reported
    as WRITE_AFTER_READ, with the tag of the first live read record that is a
    read hazard for its stage, when there is such a record. *)
Theorem DetectHazard_read_usage (s : ResourceAccessState)
    (usage_index : SyncStageAccessIndex) :
  IsRead (FlagBit usage_index) = true →
  (IsWriteHazard s (FlagBit usage_index) = true →
   DetectHazard s usage_index
   = {| hazard := READ_AFTER_WRITE; hazard_tag := write_tag s |})
  ∧ (IsWriteHazard s (FlagBit usage_index) = false →
     (∃ k, (k < last_read_count s)%nat
           ∧ IsReadHazard (PipelineStageBit usage_index) (last_reads s !!! k) = true
           ∧ (∀ j, (j < k)%nat →
                   IsReadHazard (PipelineStageBit usage_index)
                     (last_reads s !!! j) = false)
           ∧ DetectHazard s usage_index
             = {| hazard := WRITE_AFTER_READ;
                  hazard_tag := tag (last_reads s !!! k) |})
     ∨ ((∀ j, (j < last_read_count s)%nat →
              IsReadHazard (PipelineStageBit usage_index)
                (last_reads s !!! j) = false)
        ∧ DetectHazard s usage_index = HazardResult_default))
  ∧ hazard (DetectHazard s usage_index) ≠ WRITE_AFTER_WRITE.
Proof.
  intros Hread.
  assert (IsWriteHazard s (FlagBit usage_index) = false →
          (∃ k, (k < last_read_count s)%nat
             ∧ IsReadHazard (PipelineStageBit usage_index) (last_reads s !!! k)
               = true
             ∧ (∀ j, (j < k)%nat →
                     IsReadHazard (PipelineStageBit usage_index)
                       (last_reads s !!! j) = false)
             ∧ DetectHazard s usage_index
               = {| hazard := WRITE_AFTER_READ;
                    hazard_tag := tag (last_reads s !!! k) |})
          ∨ ((∀ j, (j < last_read_count s)%nat →
                   IsReadHazard (PipelineStageBit usage_index)
                     (last_reads s !!! j) = false)
             ∧ DetectHazard s usage_index = HazardResult_default)) as Hscan.
  { intros Hcov. unfold DetectHazard. rewrite Hread, Hcov, !andb_false_r. simpl.
    destruct (first_index_dec
                (λ j, IsReadHazard (PipelineStageBit usage_index)
                        (last_reads s !!! j))
                (last_read_count s) 0) as [Hnone|(k & Hk & Hhit & Hbefore)].
    - right. split; [intros j Hj; apply Hnone; lia|].
      by apply DetectHazard_reads_clean.
    - left. exists k. split; [lia|]. split; [assumption|].
      split; [intros j Hj; apply Hbefore; lia|].
      by apply DetectHazard_reads_first. }
  split; [|split; [exact Hscan|]].
  - intros Hhaz. unfold DetectHazard. by rewrite Hread, Hhaz.
  - destruct (IsWriteHazard s (FlagBit usage_index)) eqn:Hhaz.
    + unfold DetectHazard. rewrite Hread, Hhaz. simpl. discriminate.
    + destruct (Hscan eq_refl) as [(k & _ & _ & _ & ->)|[_ ->]];
        simpl; discriminate.
Qed.

(** A barrier leaves fewer hazards, never more. *)
Lemma IsWriteHazard_ApplyMemoryBarrier (s : ResourceAccessState)
    (src_scope dst_scope usage : Z) :
  IsWriteHazard s usage = false →
  IsWriteHazard (ApplyMemoryBarrier s src_scope dst_scope) usage = false.
Proof.
  unfold IsWriteHazard, ApplyMemoryBarrier.
  destruct (negb (Z.land src_scope _ =? 0)); [|done]. simpl.
  intros Hcov%negb_false_iff%Z.eqb_eq.
  apply negb_false_iff, Z.eqb_eq. apply Z.bits_inj'. intros i Hi.
  apply (f_equal (λ z, Z.testbit z i)) in Hcov.
  rewrite Z.land_spec, Z.lnot_spec, Z.bits_0 in Hcov by assumption.
  rewrite Z.land_spec, Z.lnot_spec, Z.lor_spec, Z.bits_0 by assumption.
  destruct (Z.testbit usage i), (Z.testbit (write_barriers s) i);
    simpl in *; congruence.
Qed.

Lemma IsReadHazard_barrier_read (src dst usage_stage : Z) (r : ReadState) :
  IsReadHazard usage_stage r = false →
  IsReadHazard usage_stage (barrier_read src dst r) = false.
Proof.
  unfold IsReadHazard, barrier_read.
  destruct (negb (Z.land src _ =? 0)); [|done]. simpl.
  intros Hcov%negb_false_iff%Z.eqb_eq.
  apply negb_false_iff, Z.eqb_eq. apply Z.bits_inj'. intros i Hi.
  apply (f_equal (λ z, Z.testbit z i)) in Hcov.
  rewrite Z.land_spec, Z.lnot_spec, Z.bits_0 in Hcov by assumption.
  rewrite Z.land_spec, Z.lnot_spec, Z.lor_spec, Z.bits_0 by assumption.
  destruct (Z.testbit usage_stage i), (Z.testbit (barriers r) i);
    simpl in *; congruence.
Qed.

Lemma ApplyExecutionBarrier_loop_total (src dst : Z) (n j : nat)
    (reads : list ReadState) :
  ApplyExecutionBarrier_loop reads src dst 0 n !!! j
  = if decide (j < n ∧ j < length reads)%nat
    then barrier_read src dst (reads !!! j)
    else reads !!! j.
Proof.
  rewrite !list_lookup_total_alt, ApplyExecutionBarrier_loop_lookup.
  destruct (decide (j < length reads)%nat) as [Hlt|Hge].
  - destruct (lookup_lt_is_Some_2 reads j Hlt) as [x Hx]. rewrite Hx.
    repeat case_decide; try reflexivity; lia.
  - rewrite (lookup_ge_None_2 reads j) by lia.
    repeat case_decide; try reflexivity; lia.
Qed.

(** X4: neither kind of barrier turns a clean query into a hazard: a usage
    for which [DetectHazard] reports nothing is still reported nothing
    after [ApplyExecutionBarrier] and after [ApplyMemoryBarrier], whatever
    the masks. *)
Theorem barriers_add_no_hazard (s : ResourceAccessState)
    (usage_index : SyncStageAccessIndex) (src dst : Z) :
  hazard (DetectHazard s usage_index) = NONE →
  hazard (DetectHazard (ApplyExecutionBarrier s src dst) usage_index) = NONE
  ∧ hazard (DetectHazard (ApplyMemoryBarrier s src dst) usage_index) = NONE.
Proof.
  intros (Hraw & Hwaw & Hwar)%DetectHazard_none_iff. split.
  - apply DetectHazard_none_iff. split; [exact Hraw|]. split; [exact Hwaw|].
    simpl. intros j Hj. rewrite ApplyExecutionBarrier_loop_total.
    case_decide; [|by apply Hwar].
    apply IsReadHazard_barrier_read. by apply Hwar.
  - apply DetectHazard_none_iff.
    assert (IsWriteHazard s (FlagBit usage_index) = false →
            IsWriteHazard (ApplyMemoryBarrier s src dst) (FlagBit usage_index)
            = false) as Hmono by apply IsWriteHazard_ApplyMemoryBarrier.
    assert (last_write (ApplyMemoryBarrier s src dst) = last_write s
            ∧ last_reads (ApplyMemoryBarrier s src dst) = last_reads s
            ∧ last_read_count (ApplyMemoryBarrier s src dst)
              = last_read_count s) as (Hlw & Hreads & Hcount).
    { unfold ApplyMemoryBarrier.
      destruct (negb (Z.land src _ =? 0)); simpl; done. }
    rewrite Hlw, Hreads, Hcount.
    split; [|split; [|exact Hwar]].
    + destruct (IsWriteHazard s (FlagBit usage_index));
        [|by rewrite Hmono, andb_false_r].
      rewrite andb_true_r in Hraw. by rewrite Hraw.
    + destruct (IsWriteHazard s (FlagBit usage_index));
        [|by rewrite Hmono, andb_false_r].
      rewrite andb_true_r in Hwaw. by rewrite Hwaw.
Qed.

End DetectionFacts.

(** ** Barriers and recorded accesses in sequence *)

Section SequenceFacts.
Context `{!SyncStageAccessTables}.

Lemma land_lor_superset (a b c : Z) :
  Z.land a b ≠ 0 → Z.land a (Z.lor b c) ≠ 0.
Proof.
  intros Hnz Hz. rewrite Z.land_lor_distr_r in Hz.
  by apply Z.lor_eq_0_iff in Hz as [? _].
Qed.

Lemma barrier_read_idempotent (src dst : Z) (r : ReadState) :
  barrier_read src dst (barrier_read src dst r) = barrier_read src dst r.
Proof.
  unfold barrier_read at 2 3.
  destruct (Z.eqb_spec (Z.land src (Z.lor (stage r) (barriers r))) 0)
    as [Hz|Hnz]; simpl.
  - unfold barrier_read. by rewrite Hz.
  - unfold barrier_read. simpl.
    destruct (Z.eqb_spec
                (Z.land src (Z.lor (stage r) (Z.lor (barriers r) dst))) 0)
      as [Hz|_]; simpl.
    + exfalso. rewrite Z.lor_assoc in Hz. by apply (land_lor_superset _ _ dst) in Hnz.
    + by rewrite <- Z.lor_assoc, Z.lor_diag.
Qed.

(** X5: a barrier applied twice in a row does what it does applied once,
    for [ApplyExecutionBarrier] and for [ApplyMemoryBarrier]. *)
Theorem barriers_idempotent (s : ResourceAccessState) (src dst : Z) :
  ApplyExecutionBarrier (ApplyExecutionBarrier s src dst) src dst
  = ApplyExecutionBarrier s src dst
  ∧ ApplyMemoryBarrier (ApplyMemoryBarrier s src dst) src dst
    = ApplyMemoryBarrier s src dst.
Proof.
  split.
  - unfold ApplyExecutionBarrier. simpl. f_equal.
    apply list_eq. intros j. rewrite !ApplyExecutionBarrier_loop_lookup.
    case_decide; [|reflexivity].
    destruct (last_reads s !! j); simpl; [|reflexivity].
    by rewrite barrier_read_idempotent.
  - unfold ApplyMemoryBarrier at 2 3.
    destruct (Z.eqb_spec
                (Z.land src (Z.lor (last_write s) (write_barriers s))) 0)
      as [Hz|Hnz]; simpl.
    + unfold ApplyMemoryBarrier. by rewrite Hz.
    + unfold ApplyMemoryBarrier. simpl.
      destruct (Z.eqb_spec
                  (Z.land src
                     (Z.lor (last_write s) (Z.lor (write_barriers s) dst))) 0)
        as [Hz|_]; simpl.
      * exfalso. rewrite Z.lor_assoc in Hz.
        by apply (land_lor_superset _ _ dst) in Hnz.
      * by rewrite <- Z.lor_assoc, Z.lor_diag.
Qed.

(** X6: a write-class [Update] erases the history: whatever the state was,
    the next query depends on the recorded write alone.  A read-class usage
    with a non-empty flag bit is reported READ_AFTER_WRITE; any other usage
    with a non-empty flag bit is reported WRITE_AFTER_WRITE when the recorded
    write has a non-empty flag bit; every other usage is reported nothing.
    The tag reported is the tag of the write. *)
Theorem DetectHazard_after_write (s : ResourceAccessState)
    (write_usage usage_index : SyncStageAccessIndex) (tag_ : ResourceUsageTag) :
  IsRead_index write_usage = false →
  ∃ s', Update s write_usage tag_ = Some s'
        ∧ DetectHazard s' usage_index
          = if IsRead (FlagBit usage_index) && negb (FlagBit usage_index =? 0)
            then {| hazard := READ_AFTER_WRITE; hazard_tag := tag_ |}
            else if negb (FlagBit write_usage =? 0)
                    && negb (FlagBit usage_index =? 0)
            then {| hazard := WRITE_AFTER_WRITE; hazard_tag := tag_ |}
            else HazardResult_default.
Proof.
  intros Hw. unfold Update. rewrite Hw. eexists. split; [reflexivity|].
  unfold DetectHazard, IsWriteHazard. simpl.
  change (Z.lnot 0) with (-1). rewrite Z.land_m1_r.
  destruct (IsRead (FlagBit usage_index) && negb (FlagBit usage_index =? 0));
    [reflexivity|].
  by destruct (negb (FlagBit write_usage =? 0)
               && negb (FlagBit usage_index =? 0)).
Qed.

(** After a read-class [Update] the record of the usage's stage is live and
    has an empty granted scope. *)
Lemma Update_read_record (s s' : ResourceAccessState)
    (usage_index : SyncStageAccessIndex) (tag_ : ResourceUsageTag) :
  reads_wf s →
  IsRead_index usage_index = true →
  is_single_bit (PipelineStageBit usage_index) = true →
  Update s usage_index tag_ = Some s' →
  ∃ k, (k < last_read_count s')%nat
       ∧ last_reads s' !! k
         = Some {| stage := PipelineStageBit usage_index; barriers := 0;
                   tag := tag_ |}.
Proof.
  intros Hwf Hread Hbit Hup. unfold Update in Hup. rewrite Hread in Hup.
  destruct (Z.eqb_spec
              (Z.land (PipelineStageBit usage_index) (last_read_stages s)) 0)
    as [Hz|Hnz]; simpl in Hup.
  - destruct (Nat.ltb_spec (last_read_count s) (length (last_reads s)))
      as [Hlt|Hge]; [|discriminate].
    inversion Hup; subst s'; clear Hup. simpl.
    exists (last_read_count s). split; [lia|].
    by apply list_lookup_insert_eq.
  - destruct (Update_restart_wf s _ tag_ Hwf Hbit Hnz)
      as (k & r & Hk & Hst & _ & Hres).
    inversion Hup; subst s'; clear Hup. simpl. rewrite Hres.
    apply lookup_take_Some in Hk as [Hk Hlt].
    exists k. split; [assumption|].
    apply list_lookup_insert_eq. by eapply lookup_lt_Some.
Qed.

(** X7: once a read is recorded, every query at a non-empty pipeline stage
    reports a hazard, for a read-class usage as much as for a write-class
    one: the record of the read has an empty granted scope until an
    execution barrier extends it. *)
Theorem DetectHazard_after_read (s s' : ResourceAccessState)
    (read_usage usage_index : SyncStageAccessIndex) (tag_ : ResourceUsageTag) :
  reads_wf s →
  IsRead_index read_usage = true →
  is_single_bit (PipelineStageBit read_usage) = true →
  Update s read_usage tag_ = Some s' →
  PipelineStageBit usage_index ≠ 0 →
  hazard (DetectHazard s' usage_index) ≠ NONE.
Proof.
  intros Hwf Hread Hbit Hup Hstage Hnone.
  destruct (Update_read_record s s' read_usage tag_ Hwf Hread Hbit Hup)
    as (k & Hk & Hrec).
  apply DetectHazard_none_iff in Hnone as (_ & _ & Hclean).
  specialize (Hclean k Hk).
  rewrite (list_lookup_total_correct _ _ _ Hrec) in Hclean.
  unfold IsReadHazard in Hclean. simpl in Hclean.
  change (Z.lnot 0) with (-1) in Hclean. rewrite Z.land_m1_r in Hclean.
  by destruct (Z.eqb_spec (PipelineStageBit usage_index) 0).
Qed.

(** *** Capacity *)

Lemma is_single_bit_log2 (k : Z) :
  is_single_bit k = true → 0 < k ∧ k = 2 ^ Z.log2 k.
Proof.
  unfold is_single_bit. intros [Hpos Hk]%andb_true_iff.
  apply Z.ltb_lt in Hpos. apply Z.eqb_eq in Hk. done.
Qed.

(** Distinct single bits below [2 ^ n] are at most [n]. *)
Lemma single_bits_bounded (l : list Z) (n : nat) :
  NoDup l →
  (∀ x, x ∈ l → is_single_bit x = true ∧ x < 2 ^ Z.of_nat n) →
  (length l ≤ n)%nat.
Proof.
  intros Hnodup Hbits.
  set (f := λ x, Z.to_nat (Z.log2 x)).
  assert (NoDup (f <$> l)) as Hnd.
  { apply NoDup_fmap_2_strong; [|assumption].
    intros x y Hx Hy Hf.
    destruct (Hbits x Hx) as [[_ Hxe]%is_single_bit_log2 _].
    destruct (Hbits y Hy) as [[_ Hye]%is_single_bit_log2 _].
    unfold f in Hf. rewrite Hxe, Hye. f_equal.
    pose proof (Z.log2_nonneg x). pose proof (Z.log2_nonneg y). lia. }
  assert (∀ i, i ∈ f <$> l → i ∈ seq 0 n) as Hsub.
  { intros i (x & -> & Hx)%list_elem_of_fmap.
    destruct (Hbits x Hx) as [[Hpos _]%is_single_bit_log2 Hlt].
    apply elem_of_seq. unfold f.
    pose proof (Z.log2_nonneg x).
    apply Z.log2_lt_pow2 in Hlt; lia. }
  pose proof (submseteq_length _ _ (NoDup_submseteq _ _ Hnd Hsub)) as Hlen.
  by rewrite length_fmap, length_seq in Hlen.
Qed.

(** X8: one slot per stage bit is enough.  On a state with one live record
    per single-bit stage, all stages below [2 ^ capacity] and no more live
    records than slots, an [Update] whose pipeline stage is a single bit
    below [2 ^ capacity] passes the capacity assertion, and the state it
    leaves meets the same bounds. *)
Theorem Update_within_capacity (s : ResourceAccessState)
    (usage_index : SyncStageAccessIndex) (tag_ : ResourceUsageTag) :
  let capacity := length (last_reads s) in
  reads_wf s →
  (last_read_count s ≤ capacity)%nat →
  (∀ r, r ∈ live_reads s → stage r < 2 ^ Z.of_nat capacity) →
  is_single_bit (PipelineStageBit usage_index) = true →
  PipelineStageBit usage_index < 2 ^ Z.of_nat capacity →
  ∃ s', Update s usage_index tag_ = Some s'
        ∧ length (last_reads s') = capacity
        ∧ (last_read_count s' ≤ capacity)%nat
        ∧ ∀ r, r ∈ live_reads s' → stage r < 2 ^ Z.of_nat capacity.
Proof.
  simpl. intros Hwf Hcount Hbound Hbit Hstage.
  pose proof Hwf as (Hinv & Hbits & Hnodup).
  unfold Update. destruct (IsRead_index usage_index) eqn:Hread.
  - destruct (Z.eqb_spec
                (Z.land (PipelineStageBit usage_index) (last_read_stages s)) 0)
      as [Hz|Hnz]; simpl.
    + assert (∀ r, r ∈ live_reads s → stage r ≠ PipelineStageBit usage_index)
        as Hfresh.
      { intros r Hr Heq. rewrite Hinv in Hz.
        pose proof (land_stages_union_0 _ _ Hz r Hr) as Hmeet.
        rewrite Heq, Z.land_diag in Hmeet.
        by apply (is_single_bit_nonzero _ Hbit). }
      assert (S (last_read_count s) ≤ length (last_reads s))%nat as Hroom.
      { assert (length (PipelineStageBit usage_index
                        :: (stage <$> live_reads s))
                ≤ length (last_reads s))%nat as Hlen.
        { apply single_bits_bounded.
          - constructor; [|assumption].
            intros (r & Heq & Hr)%list_elem_of_fmap. by apply (Hfresh r Hr).
          - intros x [->|(r & -> & Hr)%list_elem_of_fmap]%elem_of_cons;
              [done|]. split; [|by apply Hbound].
            by apply (proj1 (Forall_forall _ _) Hbits). }
        simpl in Hlen. unfold live_reads in Hlen.
        rewrite length_fmap, length_take in Hlen. lia. }
      destruct (Nat.ltb_spec (last_read_count s) (length (last_reads s)))
        as [Hlt|Hge]; [|lia].
      eexists. split; [reflexivity|]. simpl.
      rewrite length_insert. split; [reflexivity|]. split; [lia|].
      unfold live_reads at 1. simpl. rewrite live_reads_append by assumption.
      intros r [Hr|Hr%list_elem_of_singleton]%elem_of_app;
        [by apply Hbound|by subst r].
    + eexists. split; [reflexivity|]. simpl.
      rewrite Update_restart_length. split; [reflexivity|].
      split; [assumption|]. intros r Hr.
      assert (stage r ∈ stage <$> live_reads s) as Hin.
      { unfold live_reads in *. simpl in Hr.
        rewrite fmap_take, <- (Update_restart_stages _ (PipelineStageBit
          usage_index) tag_ (last_read_count s) 0), <- fmap_take.
        by apply list_elem_of_fmap_2. }
      apply list_elem_of_fmap in Hin as (r0 & -> & Hr0). by apply Hbound.
  - eexists. split; [reflexivity|]. simpl. split; [reflexivity|].
    split; [lia|]. unfold live_reads. simpl. intros r Hr.
    by apply elem_of_nil in Hr.
Qed.

End SequenceFacts.

(** ** The validator on whole trackers *)

Section ValidatorFacts.
Context `{!SyncStageAccessTables}.

Lemma ApplyExecutionBarrier_empty_source (s : ResourceAccessState) (dst : Z) :
  ApplyExecutionBarrier s 0 dst = s.
Proof.
  destruct s as [wb wt lw reads cnt stages].
  unfold ApplyExecutionBarrier. simpl. f_equal.
  apply list_eq. intros j. rewrite ApplyExecutionBarrier_loop_lookup.
  case_decide; [|reflexivity]. by destruct (reads !! j).
Qed.

Lemma ApplyExecutionBarrier_write_scope (s s1 : ResourceAccessState)
    (src dst : Z) :
  write_scope_extended s s1 →
  write_scope_extended (ApplyExecutionBarrier s src dst)
    (ApplyExecutionBarrier s1 src dst).
Proof.
  intros (Hr & Hc & Hm & Hlw & Ht & x & Hx).
  unfold ApplyExecutionBarrier. repeat split; simpl; try congruence.
  by exists x.
Qed.

(** X9: the record phase of a pipeline barrier creates no entry, and takes
    every tracked state to the state [ApplyExecutionBarrier] alone gives,
    but for [write_barriers], which may have gained bits: the read records,
    their count and the stage mask, the last write and the write tag are
    those of the execution barrier, whatever memory and buffer barriers the
    call carries. *)
Theorem PreCallRecordCmdPipelineBarrier_effect (tracker : ResourceAccessTracker)
    (srcStageMask dstStageMask : Z) (pMemoryBarriers : list VkMemoryBarrier)
    (pBufferMemoryBarriers : list VkBufferMemoryBarrier) :
  ∃ tracker',
    PreCallRecordCmdPipelineBarrier (Some tracker) srcStageMask dstStageMask
      pMemoryBarriers pBufferMemoryBarriers = Some tracker'
    ∧ (∀ b, tracker !! b = None → tracker' !! b = None)
    ∧ ∀ b s, tracker !! b = Some s →
        ∃ s', tracker' !! b = Some s'
              ∧ write_scope_extended
                  (ApplyExecutionBarrier s srcStageMask dstStageMask) s'.
Proof.
  eexists. split; [reflexivity|].
  unfold ApplyGlobalBarriers, ApplyImageBarriers. split.
  - intros b Hb. rewrite lookup_fmap.
    pose proof (ApplyBufferBarriers_lookup (AccessScopeByStage srcStageMask)
                  (AccessScopeByStage dstStageMask) pBufferMemoryBarriers
                  tracker b) as Hl.
    rewrite Hb in Hl. by rewrite Hl.
  - intros b s Hb. rewrite lookup_fmap.
    pose proof (ApplyBufferBarriers_lookup (AccessScopeByStage srcStageMask)
                  (AccessScopeByStage dstStageMask) pBufferMemoryBarriers
                  tracker b) as Hl.
    rewrite Hb in Hl. destruct Hl as (s1 & Hs1 & Hext & _).
    rewrite Hs1. simpl. eexists. split; [reflexivity|].
    eapply write_scope_extended_trans;
      [by apply ApplyExecutionBarrier_write_scope|].
    apply ApplyMemoryBarriers_write_scope.
Qed.

(** X10: a pipeline barrier with neither memory nor buffer barriers applies
    the execution barrier to every tracked state and does nothing else; with
    an empty source stage mask it leaves the tracker as it was.  Without a
    tracker the record phase fails its assertion. *)
Theorem PreCallRecordCmdPipelineBarrier_execution_only
    (tracker : ResourceAccessTracker) (srcStageMask dstStageMask : Z)
    (pMemoryBarriers : list VkMemoryBarrier)
    (pBufferMemoryBarriers : list VkBufferMemoryBarrier) :
  PreCallRecordCmdPipelineBarrier (Some tracker) srcStageMask dstStageMask [] []
  = Some ((λ s, ApplyExecutionBarrier s srcStageMask dstStageMask) <$> tracker)
  ∧ PreCallRecordCmdPipelineBarrier (Some tracker) 0 dstStageMask [] []
    = Some tracker
  ∧ PreCallRecordCmdPipelineBarrier None srcStageMask dstStageMask
      pMemoryBarriers pBufferMemoryBarriers = None.
Proof.
  split; [reflexivity|]. split; [|reflexivity].
  unfold PreCallRecordCmdPipelineBarrier, ApplyGlobalBarriers,
    ApplyImageBarriers. simpl. f_equal.
  apply map_eq. intros b. rewrite lookup_fmap.
  destruct (tracker !! b) as [s|]; simpl; [|reflexivity].
  by rewrite ApplyExecutionBarrier_empty_source.
Qed.

Lemma validate_regions_untracked (log_msg : LogMsg → bool)
    (tracker : ResourceAccessTracker) (srcBuffer dstBuffer : VkBuffer)
    (pRegions : list VkBufferCopy) (region : nat) :
  tracker !! srcBuffer = None → tracker !! dstBuffer = None →
  validate_regions log_msg tracker srcBuffer dstBuffer pRegions region false
  = (false,
     concat ((λ i, [EvDetectHazard SYNC_TRANSFER_TRANSFER_READ srcBuffer i;
                    EvDetectHazard SYNC_TRANSFER_TRANSFER_WRITE dstBuffer i])
             <$> seq region (length pRegions))).
Proof.
  intros Hsrc Hdst. revert region.
  induction pRegions as [|r rest IH]; intros region; simpl; [reflexivity|].
  rewrite validate_region_spec.
  unfold copy_region_skip, copy_region_events, buffer_hazard.
  rewrite Hsrc, Hdst. simpl. by rewrite IH.
Qed.

(** X11: a copy between two buffers the tracker has no entry for is clean
    whatever the logging layer answers: every region is checked, source then
    destination, nothing is reported and the call returns false. *)
Theorem PreCallValidateCmdCopyBuffer_untracked (log_msg : LogMsg → bool)
    (tracker : ResourceAccessTracker) (srcBuffer dstBuffer : VkBuffer)
    (pRegions : list VkBufferCopy) :
  tracker !! srcBuffer = None → tracker !! dstBuffer = None →
  PreCallValidateCmdCopyBuffer log_msg (Some tracker) srcBuffer dstBuffer
    pRegions
  = (false,
     concat ((λ i, [EvDetectHazard SYNC_TRANSFER_TRANSFER_READ srcBuffer i;
                    EvDetectHazard SYNC_TRANSFER_TRANSFER_WRITE dstBuffer i])
             <$> seq 0 (length pRegions))).
Proof.
  intros Hsrc Hdst. by apply validate_regions_untracked.
Qed.

(** *** The record phase of a copy *)

Section Recording.
Variable ResourceAccessState_new : ResourceAccessState.

Lemma UpdateAccessState_other (tracker tracker' : ResourceAccessTracker)
    (current_usage : SyncStageAccessIndex) (buffer_ b : VkBuffer)
    (region : VkBufferCopy) (tag_ : ResourceUsageTag) :
  UpdateAccessState ResourceAccessState_new tracker current_usage buffer_
    region tag_ = Some tracker' →
  b ≠ buffer_ → tracker' !! b = tracker !! b.
Proof.
  unfold UpdateAccessState, Tracker_Get. intros Hup Hne.
  destruct (tracker !! buffer_) as [s|].
  - destruct (Update s current_usage tag_); [|discriminate].
    inversion Hup; subst. by rewrite lookup_insert_ne.
  - destruct (Update ResourceAccessState_new current_usage tag_);
      [|discriminate].
    inversion Hup; subst. by rewrite !lookup_insert_ne.
Qed.

Lemma UpdateAccessState_entry (tracker tracker' : ResourceAccessTracker)
    (current_usage : SyncStageAccessIndex) (buffer_ : VkBuffer)
    (region : VkBufferCopy) (tag_ : ResourceUsageTag) :
  UpdateAccessState ResourceAccessState_new tracker current_usage buffer_
    region tag_ = Some tracker' →
  tracker' !! buffer_
  = Update (default ResourceAccessState_new (tracker !! buffer_))
      current_usage tag_.
Proof.
  unfold UpdateAccessState, Tracker_Get. intros Hup.
  destruct (tracker !! buffer_) as [s|]; simpl.
  - destruct (Update s current_usage tag_); [|discriminate].
    inversion Hup; subst. by rewrite lookup_insert_eq.
  - destruct (Update ResourceAccessState_new current_usage tag_);
      [|discriminate].
    inversion Hup; subst. by rewrite lookup_insert_eq.
Qed.

Lemma UpdateAccessState_keeps (tracker tracker' : ResourceAccessTracker)
    (current_usage : SyncStageAccessIndex) (buffer_ b : VkBuffer)
    (region : VkBufferCopy) (tag_ : ResourceUsageTag) :
  UpdateAccessState ResourceAccessState_new tracker current_usage buffer_
    region tag_ = Some tracker' →
  is_Some (tracker !! b) → is_Some (tracker' !! b).
Proof.
  intros Hup Hb. destruct (decide (b = buffer_)) as [->|Hne].
  - rewrite (UpdateAccessState_entry _ _ _ _ _ _ Hup).
    unfold UpdateAccessState, Tracker_Get in Hup.
    destruct (tracker !! buffer_) as [s|]; simpl.
    + by destruct (Update s current_usage tag_).
    + by destruct (Update ResourceAccessState_new current_usage tag_).
  - by rewrite (UpdateAccessState_other _ _ _ _ _ _ _ Hup Hne).
Qed.

Lemma record_regions_spec (srcBuffer dstBuffer : VkBuffer)
    (tag_ : ResourceUsageTag) (pRegions : list VkBufferCopy)
    (tracker tracker' : ResourceAccessTracker) :
  IsRead_index SYNC_TRANSFER_TRANSFER_WRITE = false →
  record_regions ResourceAccessState_new tracker srcBuffer dstBuffer pRegions
    tag_ = Some tracker' →
  (pRegions = [] → tracker' = tracker)
  ∧ (∀ b, b ≠ srcBuffer → b ≠ dstBuffer → tracker' !! b = tracker !! b)
  ∧ (∀ b, is_Some (tracker !! b) → is_Some (tracker' !! b))
  ∧ (pRegions ≠ [] →
     is_Some (tracker' !! srcBuffer)
     ∧ ∃ s', tracker' !! dstBuffer = Some s' ∧ records_write s' tag_).
Proof.
  intros Hw. revert tracker.
  induction pRegions as [|r rest IH]; intros tracker Hrec; simpl in Hrec.
  - inversion Hrec; subst. done.
  - destruct (UpdateAccessState _ tracker _ srcBuffer r tag_)
      as [tracker1|] eqn:Hread; [|discriminate].
    destruct (UpdateAccessState _ tracker1 _ dstBuffer r tag_)
      as [tracker2|] eqn:Hwrite; [|discriminate].
    destruct (IH tracker2 Hrec) as (Hnil & Hother & Hkeep & Hlast).
    split; [discriminate|]. split; [|split].
    + intros b Hs Hd. rewrite Hother by assumption.
      rewrite (UpdateAccessState_other _ _ _ _ _ _ _ Hwrite Hd).
      by rewrite (UpdateAccessState_other _ _ _ _ _ _ _ Hread Hs).
    + intros b Hb. apply Hkeep.
      apply (UpdateAccessState_keeps _ _ _ _ _ _ _ Hwrite).
      by apply (UpdateAccessState_keeps _ _ _ _ _ _ _ Hread).
    + intros _. destruct rest as [|r' rest'].
      * rewrite (Hnil eq_refl). split.
        -- apply (UpdateAccessState_keeps _ _ _ _ _ _ _ Hwrite).
           rewrite (UpdateAccessState_entry _ _ _ _ _ _ Hread).
           unfold UpdateAccessState, Tracker_Get in Hread.
           destruct (tracker !! srcBuffer) as [s|]; simpl.
           ++ by destruct (Update s _ tag_).
           ++ by destruct (Update ResourceAccessState_new _ tag_).
        -- rewrite (UpdateAccessState_entry _ _ _ _ _ _ Hwrite).
           unfold Update. rewrite Hw. eexists. split; [reflexivity|].
           by repeat split.
      * apply Hlast. discriminate.
Qed.

(** X12: what recording a copy leaves in the tracker, when it goes through.
    Without regions the tracker is unchanged and no entry is created.  With
    at least one region the source has an entry, and the destination's entry
    holds the transfer write with the validator's tag, no granted scope and
    no read record.  No entry is ever removed, and the entries of all other
    buffers are as they were.  Without a tracker the record phase fails its
    assertion. *)
Theorem PreCallRecordCmdCopyBuffer_effect (tracker tracker' : ResourceAccessTracker)
    (srcBuffer dstBuffer : VkBuffer) (pRegions : list VkBufferCopy)
    (tag_ : ResourceUsageTag) :
  IsRead_index SYNC_TRANSFER_TRANSFER_WRITE = false →
  PreCallRecordCmdCopyBuffer ResourceAccessState_new (Some tracker) srcBuffer
    dstBuffer pRegions tag_ = Some tracker' →
  (pRegions = [] → tracker' = tracker)
  ∧ (∀ b, b ≠ srcBuffer → b ≠ dstBuffer → tracker' !! b = tracker !! b)
  ∧ (∀ b, is_Some (tracker !! b) → is_Some (tracker' !! b))
  ∧ (pRegions ≠ [] →
     is_Some (tracker' !! srcBuffer)
     ∧ ∃ s', tracker' !! dstBuffer = Some s'
             ∧ last_write s' = FlagBit SYNC_TRANSFER_TRANSFER_WRITE
             ∧ write_tag s' = tag_
             ∧ write_barriers s' = 0
             ∧ last_read_count s' = 0%nat
             ∧ last_read_stages s' = 0)
  ∧ PreCallRecordCmdCopyBuffer ResourceAccessState_new None srcBuffer
      dstBuffer pRegions tag_ = None.
Proof.
  intros Hw Hrec. simpl in Hrec.
  destruct (record_regions_spec _ _ _ _ _ _ Hw Hrec)
    as (Hnil & Hother & Hkeep & Hlast).
  split; [assumption|]. split; [assumption|]. split; [assumption|].
  split; [|reflexivity]. intros Hne.
  destruct (Hlast Hne) as (Hsrc & s' & Hdst & Hs'). split; [assumption|].
  by exists s'.
Qed.

(** X13: once a copy is recorded, validating any copy into the same
    destination finds a hazard in its first region, whatever its source: the
    destination's recorded write has no granted scope.  Where the logging
    layer asks to skip at every report, validation returns true. *)
Theorem PreCallValidateCmdCopyBuffer_after_record
    (tracker tracker' : ResourceAccessTracker)
    (srcBuffer dstBuffer : VkBuffer) (pRegions : list VkBufferCopy)
    (tag_ : ResourceUsageTag) :
  IsRead_index SYNC_TRANSFER_TRANSFER_WRITE = false →
  FlagBit SYNC_TRANSFER_TRANSFER_WRITE ≠ 0 →
  pRegions ≠ [] →
  PreCallRecordCmdCopyBuffer ResourceAccessState_new (Some tracker) srcBuffer
    dstBuffer pRegions tag_ = Some tracker' →
  ∀ srcBuffer',
    copy_has_hazard tracker' srcBuffer' dstBuffer = true
    ∧ ∀ log_msg pRegions',
        (∀ m, log_msg m = true) → pRegions' ≠ [] →
        (PreCallValidateCmdCopyBuffer log_msg (Some tracker') srcBuffer'
           dstBuffer pRegions').1 = true.
Proof.
  intros Hw Hbit Hne Hrec srcBuffer'. simpl in Hrec.
  destruct (record_regions_spec _ _ _ _ _ _ Hw Hrec) as (_ & _ & _ & Hlast).
  destruct (Hlast Hne) as (_ & s' & Hdst & Hlw & _ & Hwb & _ & _).
  assert (is_hazard (buffer_hazard tracker' SYNC_TRANSFER_TRANSFER_WRITE
                       dstBuffer) = true) as Hhaz.
  { unfold buffer_hazard. rewrite Hdst. unfold is_hazard.
    destruct (hazard (DetectHazard s' SYNC_TRANSFER_TRANSFER_WRITE))
      eqn:Hnone; try reflexivity.
    apply DetectHazard_none_iff in Hnone as (_ & Hwaw & _).
    unfold IsWriteHazard in Hwaw. rewrite Hlw, Hwb in Hwaw.
    change (Z.lnot 0) with (-1) in Hwaw. rewrite Z.land_m1_r in Hwaw.
    by destruct (Z.eqb_spec (FlagBit SYNC_TRANSFER_TRANSFER_WRITE) 0). }
  assert (copy_has_hazard tracker' srcBuffer' dstBuffer = true) as Hcopy.
  { unfold copy_has_hazard. rewrite Hhaz. apply orb_true_r. }
  split; [exact Hcopy|].
  intros log_msg pRegions' Hlog Hne'.
  destruct pRegions' as [|r rest]; [done|]. simpl.
  rewrite validate_region_spec.
  assert (copy_region_skip log_msg tracker' srcBuffer' dstBuffer 0 = true)
    as ->.
  { unfold copy_region_skip. rewrite Hhaz.
    by destruct (is_hazard (buffer_hazard tracker' _ srcBuffer')). }
  reflexivity.
Qed.

End Recording.

End ValidatorFacts.

(** ** The worked instance, continued *)

Section MoreExamples.
#[local] Existing Instance transfer_tables.

(** Recording a copy from buffer 7 to buffer 8 on the one-buffer tracker. *)
Example record_copy :
  PreCallRecordCmdCopyBuffer untouched_state (Some one_buffer_tracker)
    7%N 8%N two_regions 5%N
  = Some (<[ 8%N := {| write_barriers := 0;
                       write_tag := 5%N;
                       last_write := 2;
                       last_reads := replicate 32 inhabitant;
                       last_read_count := 0;
                       last_read_stages := 0 |} ]>
            {[ 7%N := {| write_barriers := 0;
                         write_tag := 1%N;
                         last_write := 2;
                         last_reads :=
                           {| stage := 4096; barriers := 0; tag := 5%N |}
                           :: replicate 31 inhabitant;
                         last_read_count := 1;
                         last_read_stages := 4096 |} ]}).
Proof. reflexivity. Qed.

(** X2, on the two access bits of the transfer stage. *)
Lemma AccessScopeImpl_lor_witness :
  0 ≤ 2048 ∧ 0 ≤ 4096
  ∧ ascending_single_bit_keys syncStageAccessMaskByAccessBit = true
  ∧ AccessScopeImpl (Z.lor 2048 4096) syncStageAccessMaskByAccessBit
    = Z.lor (AccessScopeImpl 2048 syncStageAccessMaskByAccessBit)
        (AccessScopeImpl 4096 syncStageAccessMaskByAccessBit).
Proof.
  assert (0 ≤ 2048) as Ha by lia. assert (0 ≤ 4096) as Hb by lia.
  split; [exact Ha|]. split; [exact Hb|]. split; [reflexivity|].
  apply (AccessScopeImpl_lor 2048 4096 syncStageAccessMaskByAccessBit Ha Hb).
  reflexivity.
Defined.

(** X3, at the read state: the transfer read is covered against the write
    and is reported against the earlier read. *)
Lemma DetectHazard_read_usage_witness :
  IsRead (FlagBit SYNC_TRANSFER_TRANSFER_READ) = true
  ∧ hazard (DetectHazard read_state SYNC_TRANSFER_TRANSFER_READ)
    ≠ WRITE_AFTER_WRITE
  ∧ DetectHazard read_state SYNC_TRANSFER_TRANSFER_READ
    = {| hazard := WRITE_AFTER_READ; hazard_tag := 2%N |}.
Proof.
  assert (IsRead (FlagBit SYNC_TRANSFER_TRANSFER_READ) = true) as Hread
    by reflexivity.
  split; [exact Hread|]. split; [|reflexivity].
  apply (DetectHazard_read_usage read_state SYNC_TRANSFER_TRANSFER_READ Hread).
Defined.

(** X4, at the synchronized state, clean for the transfer read. *)
Lemma barriers_add_no_hazard_witness :
  hazard (DetectHazard synced_state SYNC_TRANSFER_TRANSFER_READ) = NONE
  ∧ hazard (DetectHazard (ApplyExecutionBarrier synced_state 4096 1)
              SYNC_TRANSFER_TRANSFER_READ) = NONE
  ∧ hazard (DetectHazard (ApplyMemoryBarrier synced_state 4096 1)
              SYNC_TRANSFER_TRANSFER_READ) = NONE.
Proof.
  assert (hazard (DetectHazard synced_state SYNC_TRANSFER_TRANSFER_READ) = NONE)
    as Hclean by reflexivity.
  split; [exact Hclean|].
  apply (barriers_add_no_hazard synced_state SYNC_TRANSFER_TRANSFER_READ
           4096 1 Hclean).
Defined.

(** X6, from the read state. *)
Lemma DetectHazard_after_write_witness :
  IsRead_index SYNC_TRANSFER_TRANSFER_WRITE = false
  ∧ ∃ s', Update read_state SYNC_TRANSFER_TRANSFER_WRITE 4%N = Some s'
          ∧ DetectHazard s' SYNC_TRANSFER_TRANSFER_READ
            = {| hazard := READ_AFTER_WRITE; hazard_tag := 4%N |}.
Proof.
  assert (IsRead_index SYNC_TRANSFER_TRANSFER_WRITE = false) as Hw
    by reflexivity.
  split; [exact Hw|].
  exact (DetectHazard_after_write read_state SYNC_TRANSFER_TRANSFER_WRITE
           SYNC_TRANSFER_TRANSFER_READ 4%N Hw).
Defined.

(** X7, from the synchronized state to the read state. *)
Lemma DetectHazard_after_read_witness :
  reads_wf synced_state
  ∧ IsRead_index SYNC_TRANSFER_TRANSFER_READ = true
  ∧ is_single_bit (PipelineStageBit SYNC_TRANSFER_TRANSFER_READ) = true
  ∧ Update synced_state SYNC_TRANSFER_TRANSFER_READ 2%N = Some read_state
  ∧ PipelineStageBit SYNC_TRANSFER_TRANSFER_READ ≠ 0
  ∧ hazard (DetectHazard read_state SYNC_TRANSFER_TRANSFER_READ) ≠ NONE.
Proof.
  assert (reads_wf synced_state) as Hwf by (by apply reads_wf_empty).
  assert (PipelineStageBit SYNC_TRANSFER_TRANSFER_READ ≠ 0) as Hstage
    by discriminate.
  split; [exact Hwf|]. repeat (split; [reflexivity|]).
  split; [exact Hstage|].
  apply (DetectHazard_after_read synced_state read_state
           SYNC_TRANSFER_TRANSFER_READ SYNC_TRANSFER_TRANSFER_READ 2%N Hwf);
    first [reflexivity | exact Hstage].
Defined.

(** X8, at the read state, whose array has 32 slots. *)
Lemma Update_within_capacity_witness :
  reads_wf read_state
  ∧ (last_read_count read_state ≤ length (last_reads read_state))%nat
  ∧ (∀ r, r ∈ live_reads read_state →
          stage r < 2 ^ Z.of_nat (length (last_reads read_state)))
  ∧ is_single_bit (PipelineStageBit SYNC_TRANSFER_TRANSFER_READ) = true
  ∧ PipelineStageBit SYNC_TRANSFER_TRANSFER_READ
    < 2 ^ Z.of_nat (length (last_reads read_state))
  ∧ ∃ s', Update read_state SYNC_TRANSFER_TRANSFER_READ 3%N = Some s'
          ∧ length (last_reads s') = length (last_reads read_state)
          ∧ (last_read_count s' ≤ length (last_reads read_state))%nat
          ∧ ∀ r, r ∈ live_reads s' →
                 stage r < 2 ^ Z.of_nat (length (last_reads read_state)).
Proof.
  assert (reads_wf read_state) as Hwf.
  { apply (reads_wf_step synced_state read_state
             (OpUpdate SYNC_TRANSFER_TRANSFER_READ 2%N));
      [reflexivity|by apply reads_wf_empty|reflexivity]. }
  assert (last_read_count read_state ≤ length (last_reads read_state))%nat
    as Hcount by (vm_compute; lia).
  assert (∀ r, r ∈ live_reads read_state →
               stage r < 2 ^ Z.of_nat (length (last_reads read_state)))
    as Hbound.
  { intros r Hr.
    change (live_reads read_state)
      with [{| stage := 4096; barriers := 0; tag := 2%N |}] in Hr.
    apply list_elem_of_singleton in Hr. by subst r. }
  assert (PipelineStageBit SYNC_TRANSFER_TRANSFER_READ
          < 2 ^ Z.of_nat (length (last_reads read_state))) as Hstage
    by reflexivity.
  split; [exact Hwf|]. split; [exact Hcount|]. split; [exact Hbound|].
  split; [reflexivity|]. split; [exact Hstage|].
  apply (Update_within_capacity read_state SYNC_TRANSFER_TRANSFER_READ 3%N
           Hwf Hcount Hbound); [reflexivity|exact Hstage].
Defined.

(** X11, for buffers 8 and 9, which the tracker does not know. *)
Lemma PreCallValidateCmdCopyBuffer_untracked_witness :
  one_buffer_tracker !! 8%N = None
  ∧ one_buffer_tracker !! 9%N = None
  ∧ PreCallValidateCmdCopyBuffer log_msg_strict (Some one_buffer_tracker)
      8%N 9%N two_regions
    = (false,
       [EvDetectHazard SYNC_TRANSFER_TRANSFER_READ 8%N 0;
        EvDetectHazard SYNC_TRANSFER_TRANSFER_WRITE 9%N 0;
        EvDetectHazard SYNC_TRANSFER_TRANSFER_READ 8%N 1;
        EvDetectHazard SYNC_TRANSFER_TRANSFER_WRITE 9%N 1]).
Proof.
  assert (one_buffer_tracker !! 8%N = None) as Hsrc by reflexivity.
  assert (one_buffer_tracker !! 9%N = None) as Hdst by reflexivity.
  split; [exact Hsrc|]. split; [exact Hdst|].
  apply (PreCallValidateCmdCopyBuffer_untracked log_msg_strict
           one_buffer_tracker 8%N 9%N two_regions Hsrc Hdst).
Defined.

(** X12, recording the copy from buffer 7 to buffer 8. *)
Lemma PreCallRecordCmdCopyBuffer_effect_witness :
  IsRead_index SYNC_TRANSFER_TRANSFER_WRITE = false
  ∧ ∃ tracker',
      PreCallRecordCmdCopyBuffer untouched_state (Some one_buffer_tracker)
        7%N 8%N two_regions 5%N = Some tracker'
      ∧ (∀ b, b ≠ 7%N → b ≠ 8%N → tracker' !! b = one_buffer_tracker !! b)
      ∧ (∀ b, is_Some (one_buffer_tracker !! b) → is_Some (tracker' !! b)).
Proof.
  assert (IsRead_index SYNC_TRANSFER_TRANSFER_WRITE = false) as Hw
    by reflexivity.
  split; [exact Hw|]. eexists. split; [exact record_copy|].
  pose proof (PreCallRecordCmdCopyBuffer_effect untouched_state
                one_buffer_tracker _ 7%N 8%N two_regions 5%N Hw record_copy)
    as (_ & Hother & Hkeep & _).
  split; [exact Hother|exact Hkeep].
Defined.

(** X13, validating a copy from buffer 9 into buffer 8 after the recording. *)
Lemma PreCallValidateCmdCopyBuffer_after_record_witness :
  IsRead_index SYNC_TRANSFER_TRANSFER_WRITE = false
  ∧ FlagBit SYNC_TRANSFER_TRANSFER_WRITE ≠ 0
  ∧ two_regions ≠ []
  ∧ ∃ tracker',
      PreCallRecordCmdCopyBuffer untouched_state (Some one_buffer_tracker)
        7%N 8%N two_regions 5%N = Some tracker'
      ∧ copy_has_hazard tracker' 9%N 8%N = true.
Proof.
  assert (IsRead_index SYNC_TRANSFER_TRANSFER_WRITE = false) as Hw
    by reflexivity.
  assert (FlagBit SYNC_TRANSFER_TRANSFER_WRITE ≠ 0) as Hbit by discriminate.
  assert (two_regions ≠ []) as Hne by discriminate.
  split; [exact Hw|]. split; [exact Hbit|]. split; [exact Hne|].
  eexists. split; [exact record_copy|].
  apply (PreCallValidateCmdCopyBuffer_after_record untouched_state
           one_buffer_tracker _ 7%N 8%N two_regions 5%N Hw Hbit Hne
           record_copy 9%N).
Defined.

End MoreExamples.
